(** * web-proxy: a shallow embedding of [main.go]

    The program is a local forward proxy with two HTTP listeners: a direct one
    and one chained through a second-level proxy.  This development embeds the
    upstream-URL parser, the CONNECT handlers, the plain-HTTP handlers and the
    byte relay ([transfer]), and states what each of them does.

    Go values are modelled as follows: a Go [string] is a [string] (a sequence
    of 8-bit characters), a [[]byte] is a [list byte], an [error] is an
    [option Error] ([None] is [nil]), a [net.Conn] is a record holding what the
    peer will send, what has been written to it and whether it is closed. *)

From Stdlib Require Import List Bool Arith NArith ZArith Lia.
From Stdlib.Strings Require Import String Ascii Byte.
Import ListNotations.
Open Scope string_scope.

(** ** Errors *)

Inductive Error : Type :=
| EOF                       (* io.EOF *)
| ErrClosed                 (* use of closed network connection *)
| ErrShortWrite             (* io.ErrShortWrite *)
| ErrInvalidWrite           (* io.errInvalidWrite *)
| ErrIO (msg : string).     (* any other I/O or protocol error *)

(** ** strings.Split *)

Module strings.

(** The scanning loop of [strings.Split] for a non-empty separator: [cur] is
    the piece being accumulated, [skip] the number of bytes of a separator
    occurrence still to be skipped.  Occurrences are found left to right and
    do not overlap, as with repeated [strings.Index]. *)
Fixpoint genSplit (sep s : string) (skip : nat) (cur : string) : list string :=
  match s with
  | EmptyString => [cur]
  | String c s' =>
      match skip with
      | S k => genSplit sep s' k cur
      | O =>
          if prefix sep s
          then cur :: genSplit sep s' (String.length sep - 1) EmptyString
          else genSplit sep s' 0 (cur ++ String c EmptyString)
      end
  end.

(** With an empty separator Go splits after each UTF-8 sequence; on the
    byte strings used here that is one piece per byte.  The program only
    calls [Split] with the separator ["@"]. *)
Fixpoint explode (s : string) : list string :=
  match s with
  | EmptyString => []
  | String c s' => String c EmptyString :: explode s'
  end.

Definition Split (s sep : string) : list string :=
  match sep with
  | EmptyString => explode s
  | String _ _ => genSplit sep s 0 EmptyString
  end.

End strings.

(** ** parseProxyURL *)

(** [parseProxyURL] returns [(server, user, err)].  The Go variables [user]
    and [server] start as the empty string and are only assigned when the
    split has exactly two or exactly one piece. *)
Definition parseProxyURL (proxyURL : string) : string * string * option Error :=
  let data := strings.Split proxyURL "@" in
  let '(user, server) :=
    if Nat.eqb (List.length data) 2 then (nth 0 data "", nth 1 data "")
    else if Nat.eqb (List.length data) 1 then ("", nth 0 data "")
    else ("", "") in
  (server, user, None).

(** Number of ['@'] bytes of a string. *)
Fixpoint count_at (s : string) : nat :=
  match s with
  | EmptyString => 0
  | String c s' => (if Ascii.eqb c "@" then 1 else 0) + count_at s'
  end.

(** The resolver as the specification words it: cut the string at its last
    ['@'] into the credentials before it and the address after it; without
    any ['@'] the whole string is the address and there are no credentials. *)
Fixpoint cut_last_at (s : string) : option (string * string) :=
  match s with
  | EmptyString => None
  | String c s' =>
      match cut_last_at s' with
      | Some (before, after) => Some (String c before, after)
      | None => if Ascii.eqb c "@" then Some (EmptyString, s') else None
      end
  end.

Definition resolver_spec (s : string) : string * string :=
  match cut_last_at s with
  | Some (credentials, address) => (address, credentials)
  | None => (s, "")
  end.

(** Splitting on the one-byte separator ["@"], written directly; [Split] with
    that separator is shown below to compute the same pieces. *)
Fixpoint fields (s cur : string) : list string :=
  match s with
  | EmptyString => [cur]
  | String c s' =>
      if Ascii.eqb c "@" then cur :: fields s' EmptyString
      else fields s' (cur ++ String c EmptyString)
  end.

(** ** encoding/base64 *)

Module base64.

(** The alphabet of [base64.StdEncoding]. *)
Definition encodeStd : string :=
  "ABCDEFGHIJKLMNOPQRSTUVWXYZabcdefghijklmnopqrstuvwxyz0123456789+/".

Definition padChar : ascii := "="%char.

(** [enc.encode[v & 0x3F]] *)
Definition encode (v : N) : ascii :=
  match String.get (N.to_nat (N.land v 63)) encodeStd with
  | Some c => c
  | None => padChar
  end.

Definition quantum (val : N) (rest : string) : string :=
  String (encode (N.shiftr val 18)) (String (encode (N.shiftr val 12))
    (String (encode (N.shiftr val 6)) (String (encode val) rest))).

(** [StdEncoding.EncodeToString]: three input bytes give four characters;
    a remainder of one or two bytes gives two or three characters padded
    with ['=']. *)
Fixpoint EncodeToString (src : list byte) : string :=
  match src with
  | [] => ""
  | [a] =>
      let val := N.shiftl (Byte.to_N a) 16 in
      String (encode (N.shiftr val 18)) (String (encode (N.shiftr val 12))
        (String padChar (String padChar "")))
  | [a; b] =>
      let val := N.lor (N.shiftl (Byte.to_N a) 16) (N.shiftl (Byte.to_N b) 8) in
      String (encode (N.shiftr val 18)) (String (encode (N.shiftr val 12))
        (String (encode (N.shiftr val 6)) (String padChar "")))
  | a :: b :: c :: rest =>
      let val := N.lor (N.lor (N.shiftl (Byte.to_N a) 16) (N.shiftl (Byte.to_N b) 8))
                       (Byte.to_N c) in
      quantum val (EncodeToString rest)
  end.

End base64.

(** ** Connections *)

(** One result of [Read]: the bytes delivered and the error returned with
    them ([None] is [nil]). *)
Definition ReadResult : Type := list byte * option Error.

(** A [net.Conn] as the program sees it.  [rd] is what successive [Read]
    calls will return (the peer's output, ending in end-of-stream when the
    list runs out), [wr] the bytes written so far, in order, which is what the
    peer observes; [wcap] is the number of further bytes the peer accepts
    before writes fail ([None]: no limit); [closed] records [Close]. *)
Record Conn : Type := mkConn {
  rd : list ReadResult;
  wr : list byte;
  wcap : option nat;
  closed : bool
}.

Definition conn_Read (c : Conn) : Conn * ReadResult :=
  if closed c then (c, ([], Some ErrClosed))
  else match rd c with
       | [] => (c, ([], Some EOF))
       | r :: rest => (mkConn rest (wr c) (wcap c) (closed c), r)
       end.

Definition conn_Write (c : Conn) (p : list byte) : Conn * (nat * option Error) :=
  if closed c then (c, (0, Some ErrClosed))
  else match wcap c with
       | None => (mkConn (rd c) (wr c ++ p) None (closed c), (List.length p, None))
       | Some k =>
           if Nat.leb (List.length p) k
           then (mkConn (rd c) (wr c ++ p) (Some (k - List.length p)) (closed c),
                 (List.length p, None))
           else (mkConn (rd c) (wr c ++ firstn k p) (Some 0) (closed c),
                 (k, Some (ErrIO "write: broken pipe")))
       end.

Definition conn_Close (c : Conn) : Conn := mkConn (rd c) (wr c) (wcap c) true.

(** The two ends of a tunnel: the hijacked client connection and the outbound
    connection (to the destination, or to the second proxy). *)
Inductive Side : Type := Client | Outbound.

Record Tunnel : Type := mkTunnel { client : Conn; outbound : Conn }.

Definition conn_of (s : Side) (t : Tunnel) : Conn :=
  match s with Client => client t | Outbound => outbound t end.

Definition set_conn (s : Side) (c : Conn) (t : Tunnel) : Tunnel :=
  match s with
  | Client => mkTunnel c (outbound t)
  | Outbound => mkTunnel (client t) c
  end.

Definition Read (s : Side) (t : Tunnel) : Tunnel * ReadResult :=
  let '(c, r) := conn_Read (conn_of s t) in (set_conn s c t, r).

Definition Write (s : Side) (p : list byte) (t : Tunnel) : Tunnel * (nat * option Error) :=
  let '(c, r) := conn_Write (conn_of s t) p in (set_conn s c t, r).

Definition Close (s : Side) (t : Tunnel) : Tunnel :=
  set_conn s (conn_Close (conn_of s t)) t.

(** ** io.Copy and transfer *)

Module io.

(** The loop of [io.Copy]: read a chunk, write it, stop on a write error, a
    short write, or any read error (end-of-stream is not reported as an
    error).  [fuel] bounds the number of iterations; [None] means the bound
    was reached. *)
Fixpoint copyBuffer (fuel : nat) (dst src : Side) (t : Tunnel) (written : nat)
  : option (Tunnel * nat * option Error) :=
  match fuel with
  | O => None
  | S fuel' =>
      let '(t1, (buf, er)) := Read src t in
      let nr := List.length buf in
      if Nat.ltb 0 nr then
        let '(t2, (nw0, ew0)) := Write dst buf t1 in
        let '(nw, ew) :=
          if Nat.ltb nr nw0
          then (0, match ew0 with None => Some ErrInvalidWrite | Some e => Some e end)
          else (nw0, ew0) in
        match ew with
        | Some e => Some (t2, written + nw, Some e)
        | None =>
            if negb (Nat.eqb nr nw) then Some (t2, written + nw, Some ErrShortWrite)
            else match er with
                 | Some EOF => Some (t2, written + nw, None)
                 | Some e => Some (t2, written + nw, Some e)
                 | None => copyBuffer fuel' dst src t2 (written + nw)
                 end
        end
      else match er with
           | Some EOF => Some (t1, written, None)
           | Some e => Some (t1, written, Some e)
           | None => copyBuffer fuel' dst src t1 written
           end
  end.

Definition Copy (fuel : nat) (dst src : Side) (t : Tunnel)
  : option (Tunnel * nat * option Error) :=
  copyBuffer fuel dst src t 0.

End io.

(** [transfer]: the deferred calls run last-in first-out once the copy has
    returned, so the source is closed first and the destination second. *)
Definition transfer (fuel : nat) (destination source : Side) (t : Tunnel) : option Tunnel :=
  match io.Copy fuel destination source t with
  | None => None
  | Some (t1, _, _) => Some (Close destination (Close source t1))
  end.

(** The byte stream a sequence of reads delivers up to end-of-stream or the
    first error. *)
Fixpoint produced (script : list ReadResult) : list byte :=
  match script with
  | [] => []
  | (bs, None) :: rest => bs ++ produced rest
  | (bs, Some _) :: _ => bs
  end.

(** What a connection still has to offer to a reader. *)
Definition pending (c : Conn) : list byte :=
  if closed c then [] else produced (rd c).

(** The part of [bs] a connection takes when [bs] is written to it. *)
Definition accepted (c : Conn) (bs : list byte) : list byte :=
  if closed c then []
  else match wcap c with None => bs | Some k => firstn k bs end.

(** ** net/http: requests, responses and the handler's world *)

Definition StatusOK : nat := 200.
Definition StatusInternalServerError : nat := 500.
Definition StatusBadGateway : nat := 502.
Definition StatusServiceUnavailable : nat := 503.
Definition MethodConnect : string := "CONNECT".

(** [time.Second], in nanoseconds as [time.Duration] counts. *)
Definition Second : Z := 1000000000.

Definition CRLF : string := String "013" (String "010" "").
Definition LF : string := String "010" "".

Record URL : Type := mkURL {
  Scheme : string;
  URLHost : string;
  Path : string;
  RawQuery : string
}.

Record Request : Type := mkRequest {
  Method : string;
  Host : string;
  ReqURL : URL;
  Header : list (string * string);
  Body : list byte
}.

Record Response : Type := mkResponse {
  StatusCode : nat;
  RespHeader : list (string * string);
  RespBody : list byte
}.

Inductive result (A : Type) : Type :=
| Ok (a : A)
| Err (e : Error).
Arguments Ok {A} a.
Arguments Err {A} e.

(** What the response writer offers when the handler asks for the client's
    socket: it is no [http.Hijacker], or [Hijack] fails, or it hands over the
    connection. *)
Inductive HijackSupport : Type :=
| NotHijacker
| HijackFails (e : Error)
| HijackGives (c : Conn).

(** Everything outside the program that a handler run depends on. *)
Record Env : Type := mkEnv {
  (* net.Dial / net.DialTimeout: address and timeout (None: unbounded) *)
  env_dial : string -> option Z -> result Conn;
  (* http.ReadResponse over a fresh bufio.Reader: from the input pending on
     the connection, what is left unread and the status code parsed *)
  env_readResponse : list ReadResult -> list ReadResult * result nat;
  env_hijack : HijackSupport;
  (* url.Parse *)
  env_urlParse : string -> result URL;
  (* Transport.RoundTrip through the given proxy (None: no proxy) *)
  env_roundTrip : option URL -> Request -> result Response
}.

(** The state a handler run acts on: the response seen by the client, the
    calls to [http.Error], the dial attempts, the outbound connection, the
    hijacked client connection and the relay goroutines started. *)
Record HState : Type := mkHState {
  status : option nat;
  headers : list (string * string);
  body : list byte;
  errorCalls : list (string * nat);
  dials : list (string * option Z);
  outConn : option Conn;
  clientConn : option Conn;
  relays : list (Side * Side)
}.

Definition initial : HState := mkHState None [] [] [] [] None None [].

(** How a statement ends: it falls through with a value, the handler
    returns, or the goroutine panics. *)
Inductive Flow (A : Type) : Type :=
| Next (a : A)
| Return
| Panic (msg : string).
Arguments Next {A} a.
Arguments Return {A}.
Arguments Panic {A} msg.

Definition Handler (A : Type) : Type := HState -> Flow A * HState.

Definition ret {A} (a : A) : Handler A := fun s => (Next a, s).

Definition bind {A B} (h : Handler A) (k : A -> Handler B) : Handler B :=
  fun s =>
    match h s with
    | (Next a, s') => k a s'
    | (Return, s') => (Return, s')
    | (Panic msg, s') => (Panic msg, s')
    end.

Definition exit {A} : Handler A := fun s => (Return, s).

Definition lift {A} (f : Flow A) : Handler A := fun s => (f, s).

Notation "x <- h ;; k" := (bind h (fun x => k))
  (at level 61, h at next level, right associativity).
Notation "h ;; k" := (bind h (fun _ => k))
  (at level 61, right associativity).

(** [if err != nil { onErr; return }] *)
Definition failWith (err : option Error) (onErr : Error -> Handler unit) : Handler unit :=
  match err with
  | Some e => onErr e ;; exit
  | None => ret tt
  end.

(** [if cond { body; return }] *)
Definition when (cond : bool) (h : Handler unit) : Handler unit :=
  if cond then h ;; exit else ret tt.

(** [w.WriteHeader]: only the first call fixes the status line; later calls
    are ignored by the server. *)
Definition WriteHeader (code : nat) : Handler unit :=
  fun s =>
    (Next tt,
     match status s with
     | Some _ => s
     | None => mkHState (Some code) (headers s) (body s) (errorCalls s) (dials s)
                        (outConn s) (clientConn s) (relays s)
     end).

(** [w.Write]: sends the header with status 200 if none was sent yet. *)
Definition w_Write (p : list byte) : Handler unit :=
  WriteHeader StatusOK ;;
  fun s =>
    (Next tt,
     mkHState (status s) (headers s) (body s ++ p) (errorCalls s) (dials s)
              (outConn s) (clientConn s) (relays s)).

Definition setHeaders (h : list (string * string)) : Handler unit :=
  fun s =>
    (Next tt,
     match status s with
     | Some _ => s
     | None => mkHState None h (body s) (errorCalls s) (dials s)
                        (outConn s) (clientConn s) (relays s)
     end).

Definition http_Error (msg : string) (code : nat) : Handler unit :=
  (fun s =>
     (Next tt,
      mkHState (status s) (headers s) (body s) (errorCalls s ++ [(msg, code)]) (dials s)
               (outConn s) (clientConn s) (relays s))) ;;
  WriteHeader code ;;
  w_Write (list_byte_of_string (msg ++ LF)).

(** [net.Dial] ([timeout = None]) and [net.DialTimeout]: one attempt. *)
Definition net_Dial (env : Env) (address : string) (timeout : option Z)
  : Handler (option Error) :=
  fun s =>
    let attempt := (dials s ++ [(address, timeout)])%list in
    match env_dial env address timeout with
    | Ok c =>
        (Next None,
         mkHState (status s) (headers s) (body s) (errorCalls s) attempt
                  (Some c) (clientConn s) (relays s))
    | Err e =>
        (Next (Some e),
         mkHState (status s) (headers s) (body s) (errorCalls s) attempt
                  (outConn s) (clientConn s) (relays s))
    end.

Definition set_outConn (c : Conn) (s : HState) : HState :=
  mkHState (status s) (headers s) (body s) (errorCalls s) (dials s)
           (Some c) (clientConn s) (relays s).

(** [proxyConn.Write(p)], its results dropped. *)
Definition outConn_Write (p : list byte) : Handler unit :=
  fun s =>
    match outConn s with
    | Some c => (Next tt, set_outConn (fst (conn_Write c p)) s)
    | None => (Panic "nil connection", s)
    end.

(** [http.ReadResponse(bufio.NewReader(proxyConn), r)] *)
Definition http_ReadResponse (env : Env) : Handler (result nat) :=
  fun s =>
    match outConn s with
    | Some c =>
        if closed c then (Next (Err ErrClosed), s)
        else let '(rest, res) := env_readResponse env (rd c) in
             (Next res, set_outConn (mkConn rest (wr c) (wcap c) (closed c)) s)
    | None => (Panic "nil connection", s)
    end.

(** [hijacker, ok := w.(http.Hijacker)] *)
Definition asHijacker (env : Env) : Handler bool :=
  ret (match env_hijack env with NotHijacker => false | _ => true end).

(** [clientConn, _, err := hijacker.Hijack()] *)
Definition Hijack (env : Env) : Handler (option Error) :=
  fun s =>
    match env_hijack env with
    | HijackGives c =>
        (Next None,
         mkHState (status s) (headers s) (body s) (errorCalls s) (dials s)
                  (outConn s) (Some c) (relays s))
    | HijackFails e => (Next (Some e), s)
    | NotHijacker => (Panic "nil pointer dereference", s)
    end.

(** [go transfer(destination, source)] *)
Definition go_transfer (destination source : Side) : Handler unit :=
  fun s =>
    (Next tt,
     mkHState (status s) (headers s) (body s) (errorCalls s) (dials s)
              (outConn s) (clientConn s) (relays s ++ [(destination, source)])).

Definition Error_string (e : Error) : string :=
  match e with
  | EOF => "EOF"
  | ErrClosed => "use of closed network connection"
  | ErrShortWrite => "short write"
  | ErrInvalidWrite => "invalid write result"
  | ErrIO msg => msg
  end.

(** ** net/http/httputil: the single-host reverse proxy *)

Module httputil.

Definition HasSuffixSlash (a : string) : bool :=
  match String.get (String.length a - 1) a with
  | Some c => Ascii.eqb c "/"
  | None => false
  end.

Definition singleJoiningSlash (a b : string) : string :=
  let aslash := HasSuffixSlash a in
  let bslash := prefix "/" b in
  if aslash && bslash then a ++ substring 1 (String.length b - 1) b
  else if negb aslash && negb bslash then a ++ "/" ++ b
  else a ++ b.

(** [rewriteRequestURL(req, target)]: the first statement reads
    [target.RawQuery], which panics on a nil [target]. *)
Definition rewriteRequestURL (req : Request) (target : option URL) : Flow Request :=
  match target with
  | None => Panic "runtime error: invalid memory address or nil pointer dereference"
  | Some t =>
      let targetQuery := RawQuery t in
      let u := ReqURL req in
      let q := if String.eqb targetQuery "" || String.eqb (RawQuery u) ""
               then targetQuery ++ RawQuery u
               else targetQuery ++ "&" ++ RawQuery u in
      Next (mkRequest (Method req) (Host req)
              (mkURL (Scheme t) (URLHost t) (singleJoiningSlash (Path t) (Path u)) q)
              (Header req) (Body req))
  end.

(** A [ReverseProxy]: its director and its transport's proxy selection
    ([None] stands for a nil [Transport], i.e. the default one). *)
Record ReverseProxy : Type := mkReverseProxy {
  Director : Request -> Flow Request;
  Transport : option (Request -> result (option URL))
}.

Definition NewSingleHostReverseProxy (target : option URL) : ReverseProxy :=
  mkReverseProxy (fun req => rewriteRequestURL req target) None.

Definition withTransport (p : ReverseProxy) (t : Request -> result (option URL))
  : ReverseProxy :=
  mkReverseProxy (Director p) (Some t).

(** [ServeHTTP]: run the director on the outgoing request, send it through
    the transport, and copy status, headers and body of the answer; a
    transport error is answered with 502. *)
Definition ServeHTTP (env : Env) (p : ReverseProxy) (r : Request) : Handler unit :=
  outreq <- lift (Director p r) ;;
  let proxyFor := match Transport p with
                  | Some f => f
                  | None => fun _ => Ok None
                  end in
  match proxyFor outreq with
  | Err _ => WriteHeader StatusBadGateway
  | Ok via =>
      match env_roundTrip env via outreq with
      | Err _ => WriteHeader StatusBadGateway
      | Ok res =>
          setHeaders (RespHeader res) ;;
          WriteHeader (StatusCode res) ;;
          w_Write (RespBody res)
      end
  end.

End httputil.

(** ** The handlers of [main.go] *)

(** [proxyTransport.Proxy] *)
Definition proxyTransport_Proxy (env : Env) (proxyURL : string) (_ : Request)
  : result (option URL) :=
  let '(proxyStr, _, err) := parseProxyURL proxyURL in
  match err with
  | Some e => Err e
  | None =>
      match env_urlParse env proxyStr with
      | Ok u => Ok (Some u)
      | Err e => Err e
      end
  end.

Definition authorizationHeader (auth : string) : string :=
  if String.eqb auth "" then ""
  else "Proxy-Authorization: Basic "
       ++ base64.EncodeToString (list_byte_of_string auth) ++ CRLF.

(** [fmt.Sprintf("CONNECT %s HTTP/1.1\r\nHost: %s\r\n%s\r\n", host, host, header)] *)
Definition connectRequest (host auth : string) : string :=
  "CONNECT " ++ host ++ " HTTP/1.1" ++ CRLF
  ++ "Host: " ++ host ++ CRLF
  ++ authorizationHeader auth ++ CRLF.

Definition handleProxyTunneling (env : Env) (proxyURL : string) (r : Request)
  : Handler unit :=
  let '(proxyStr, auth, err) := parseProxyURL proxyURL in
  failWith err (fun _ =>
    http_Error "Failed to parse proxy URL" StatusInternalServerError) ;;
  err <- net_Dial env proxyStr None ;;
  failWith err (fun _ =>
    http_Error "Failed to connect to the second proxy" StatusServiceUnavailable) ;;
  outConn_Write (list_byte_of_string (connectRequest (Host r) auth)) ;;
  resp <- http_ReadResponse env ;;
  match resp with
  | Err _ =>
      http_Error "Failed to read response from the second proxy"
                 StatusServiceUnavailable ;;
      exit
  | Ok code =>
      when (negb (Nat.eqb code 200))
        (http_Error "Failed to connect to the host through the second proxy" code) ;;
      WriteHeader StatusOK ;;
      ok <- asHijacker env ;;
      when (negb ok) (http_Error "Hijacking not supported" StatusInternalServerError) ;;
      err <- Hijack env ;;
      failWith err (fun e => http_Error (Error_string e) StatusServiceUnavailable) ;;
      go_transfer Client Outbound ;;
      go_transfer Outbound Client
  end.

Definition handleDirectTunneling (env : Env) (r : Request) : Handler unit :=
  err <- net_Dial env (Host r) (Some (10 * Second)%Z) ;;
  failWith err (fun _ =>
    http_Error "Failed to connect to the host" StatusServiceUnavailable) ;;
  WriteHeader StatusOK ;;
  ok <- asHijacker env ;;
  when (negb ok) (http_Error "Hijacking not supported" StatusInternalServerError) ;;
  err <- Hijack env ;;
  failWith err (fun e => http_Error (Error_string e) StatusServiceUnavailable) ;;
  go_transfer Outbound Client ;;
  go_transfer Client Outbound.

Definition handleProxyHTTP (env : Env) (proxyURL : string) (r : Request) : Handler unit :=
  let proxy := httputil.NewSingleHostReverseProxy None in
  let proxy := httputil.withTransport proxy (proxyTransport_Proxy env proxyURL) in
  httputil.ServeHTTP env proxy r.

Definition handleDirectHTTP (env : Env) (r : Request) : Handler unit :=
  let proxy := httputil.NewSingleHostReverseProxy None in
  httputil.ServeHTTP env proxy r.

(** The two listeners of [main]: each dispatches on the request method. *)
Inductive Mode : Type := Direct | Chained.

Definition serve (mode : Mode) (env : Env) (proxyURL : string) (r : Request)
  : Handler unit :=
  match mode with
  | Chained =>
      if String.eqb (Method r) MethodConnect
      then handleProxyTunneling env proxyURL r
      else handleProxyHTTP env proxyURL r
  | Direct =>
      if String.eqb (Method r) MethodConnect
      then handleDirectTunneling env r
      else handleDirectHTTP env r
  end.

(** A handler run from the initial state. *)
Definition run (h : Handler unit) : Flow unit * HState := h initial.

(** The tunnel a finished handler leaves to its relay goroutines. *)
Definition tunnel_of (s : HState) : option Tunnel :=
  match clientConn s, outConn s with
  | Some c, Some o => Some (mkTunnel c o)
  | _, _ => None
  end.

(** The address and the credentials a chained request takes from the
    configured upstream URL: the first two results of [parseProxyURL]. *)
Definition upstream_address (proxyURL : string) : string :=
  fst (fst (parseProxyURL proxyURL)).

Definition upstream_auth (proxyURL : string) : string :=
  snd (fst (parseProxyURL proxyURL)).

(** The outbound side of a CONNECT request was set up: the dial succeeded
    and, in chained mode, the second proxy's connection is open and its
    answer parsed with status 200.  This is when a handler reaches the
    hijack of the client connection. *)
Definition tunnel_ready (mode : Mode) (env : Env) (proxyURL : string) (r : Request) : Prop :=
  match mode with
  | Direct => exists c, env_dial env (Host r) (Some 10000000000%Z) = Ok c
  | Chained =>
      exists c,
        env_dial env (upstream_address proxyURL) None = Ok c /\
        closed c = false /\
        snd (env_readResponse env (rd c)) = Ok 200
  end.

(** ** Sample worlds *)

(** A tunnel whose client side has three reads pending, the second of which
    fails, and whose outbound side accepts everything. *)
Definition demo_tunnel : Tunnel :=
  mkTunnel
    (mkConn [([x47; x45; x54], None); ([x20; x2f], Some (ErrIO "reset")); ([x21], None)]
            [] None false)
    (mkConn [] [x3e] None false).

Definition fresh_conn : Conn := mkConn [] [] None false.

Definition connect_example : Request :=
  mkRequest "CONNECT" "example.com:443" (mkURL "" "example.com:443" "" "") [] [].

(** A world in which every dial succeeds, the second proxy answers with the
    given status and the client connection is given out as [hijack] says. *)
Definition world (upstream_status : nat) (hijack : HijackSupport) : Env :=
  mkEnv (fun _ _ => Ok fresh_conn)
        (fun pending_input => (pending_input, Ok upstream_status))
        hijack
        (fun _ => Err (ErrIO "parse"))
        (fun _ _ => Err (ErrIO "round trip")).

(** A world in which no dial succeeds. *)
Definition unreachable_world : Env :=
  mkEnv (fun _ _ => Err (ErrIO "dial tcp: connection refused"))
        (fun pending_input => (pending_input, Err EOF))
        (HijackGives fresh_conn)
        (fun _ => Err (ErrIO "parse"))
        (fun _ _ => Err (ErrIO "round trip")).

(** ** Further definitions used by the properties below *)

(** [strings.Join]: the pieces with the separator between them. *)
Fixpoint strings_Join (elems : list string) (sep : string) : string :=
  match elems with
  | [] => ""
  | [e] => e
  | e :: rest => e ++ sep ++ strings_Join rest sep
  end.

(** Number of occurrences of a byte in a string. *)
Fixpoint count_byte (b : ascii) (s : string) : nat :=
  match s with
  | EmptyString => 0
  | String c s' => (if Ascii.eqb c b then 1 else 0) + count_byte b s'
  end.

(** The characters of a string, as a list. *)
Fixpoint chars (s : string) : list ascii :=
  match s with
  | EmptyString => []
  | String c s' => c :: chars s'
  end.

(** The connection a CONNECT handler dials: the request's host within ten
    seconds on the direct listener, the configured upstream address without
    a bound on the chained one. *)
Definition dial_of (mode : Mode) (proxyURL : string) (r : Request) : string * option Z :=
  match mode with
  | Direct => (Host r, Some 10000000000%Z)
  | Chained => (upstream_address proxyURL, None)
  end.

(** ** Base 64 as RFC 4648 words it *)

(** The standard encoding, written from section 4 of RFC 4648 and not from
    the encoder above: the input is read as a stream of bits, most
    significant bit of each byte first; the stream is cut into groups of six
    bits, the last group completed with zero bits on the right; each group,
    read as a binary number, selects a character of the alphabet of Table 1;
    ['='] characters are added until the output length is a multiple of
    four. *)

(** Table 1: values 0-25 are [A]-[Z], 26-51 are [a]-[z], 52-61 are [0]-[9],
    62 is [+] and 63 is [/]. *)
Definition rfc4648_char (v : nat) : ascii :=
  if Nat.ltb v 26 then ascii_of_nat (65 + v)
  else if Nat.ltb v 52 then ascii_of_nat (97 + (v - 26))
  else if Nat.ltb v 62 then ascii_of_nat (48 + (v - 52))
  else if Nat.eqb v 62 then "+"%char
  else "/"%char.

(** The bits of a byte, most significant first. *)
Definition byte_bits (b : byte) : list bool :=
  let '(b0, (b1, (b2, (b3, (b4, (b5, (b6, b7))))))) := Byte.to_bits b in
  [b7; b6; b5; b4; b3; b2; b1; b0].

Definition input_bits (src : list byte) : list bool := flat_map byte_bits src.

(** A group of bits read as a binary number, most significant bit first. *)
Definition group_value (g : list bool) : nat :=
  fold_left (fun acc (b : bool) => 2 * acc + (if b then 1 else 0)) g 0.

(** The first [n] groups of six bits of a stream; a group the stream does
    not fill is completed with zero bits on the right. *)
Fixpoint groups6 (n : nat) (bits : list bool) : list (list bool) :=
  match n with
  | O => []
  | S n' => firstn 6 (bits ++ repeat false 5) :: groups6 n' (skipn 6 bits)
  end.

Definition rfc4648_encode (src : list byte) : string :=
  let ngroups := (8 * List.length src + 5) / 6 in
  string_of_list_ascii
    (map (fun g => rfc4648_char (group_value g)) (groups6 ngroups (input_bits src))
     ++ repeat "="%char ((4 - ngroups mod 4) mod 4)).

(** A group of bits as a number of [N], and the character the encoder's
    table holds at a position: both only serve to relate the encoder above
    to [rfc4648_encode]. *)
Definition bitsN (g : list bool) : N := N.of_nat (group_value g).

Definition pick (v : N) : ascii :=
  match String.get (N.to_nat v) base64.encodeStd with
  | Some c => c
  | None => base64.padChar
  end.

(** * Properties *)

(** ** Splitting on ["@"] *)

Section SplitAt.

Lemma prefix_at (c : ascii) (s : string) :
  prefix "@" (String c s) = Ascii.eqb c "@".
Proof.
  cbn [prefix]. destruct (ascii_dec "@" c) as [E | Hne].
  - subst c. rewrite Ascii.eqb_refl. now destruct s.
  - symmetry. apply Ascii.eqb_neq. congruence.
Qed.

Lemma genSplit_fields (s cur : string) :
  strings.genSplit "@" s 0 cur = fields s cur.
Proof.
  revert cur. induction s as [| c s IH]; intros cur.
  - reflexivity.
  - cbn [strings.genSplit fields]. rewrite prefix_at.
    destruct (Ascii.eqb c "@"); cbn [String.length Nat.sub]; now rewrite IH.
Qed.

Lemma Split_fields (s : string) : strings.Split s "@" = fields s "".
Proof. apply genSplit_fields. Qed.

Lemma fields_length (s cur : string) :
  List.length (fields s cur) = S (count_at s).
Proof.
  revert cur. induction s as [| c s IH]; intros cur; cbn [fields count_at].
  - reflexivity.
  - destruct (Ascii.eqb c "@"); cbn [List.length]; rewrite IH; reflexivity.
Qed.

Lemma append_assoc (a b c : string) : (a ++ b) ++ c = a ++ (b ++ c).
Proof. induction a as [| x a IH]; cbn; [reflexivity | now rewrite IH]. Qed.

Lemma append_nil_r (a : string) : a ++ "" = a.
Proof. induction a as [| x a IH]; cbn; [reflexivity | now rewrite IH]. Qed.

Lemma fields_no_at (s cur : string) :
  count_at s = 0 -> fields s cur = [cur ++ s].
Proof.
  revert cur. induction s as [| c s IH]; intros cur H; cbn [fields count_at] in *.
  - now rewrite append_nil_r.
  - destruct (Ascii.eqb c "@"); [discriminate |].
    rewrite IH by exact H. now rewrite append_assoc.
Qed.

Lemma cut_last_at_none (s : string) :
  count_at s = 0 -> cut_last_at s = None.
Proof.
  induction s as [| c s IH]; cbn [cut_last_at count_at]; intros H.
  - reflexivity.
  - destruct (Ascii.eqb c "@"); [discriminate |]. now rewrite IH.
Qed.

Lemma fields_one_at (s cur : string) :
  count_at s = 1 ->
  exists a b, cut_last_at s = Some (a, b) /\ fields s cur = [cur ++ a; b].
Proof.
  revert cur. induction s as [| c s IH]; intros cur H; cbn [fields count_at] in H |- *.
  - discriminate.
  - cbn [cut_last_at]. destruct (Ascii.eqb c "@") eqn:Ec.
    + assert (H0 : count_at s = 0) by lia.
      rewrite (cut_last_at_none s H0), (fields_no_at s "" H0).
      exists "", s. now rewrite append_nil_r.
    + destruct (IH (cur ++ String c "") H) as (a & b & Hc & Hf).
      rewrite Hc, Hf. exists (String c a), b. now rewrite append_assoc.
Qed.

(** The cut really is at the last ['@']: what precedes and follows it
    rebuild the string, and no ['@'] follows it. *)
Lemma cut_last_at_sound (s a b : string) :
  cut_last_at s = Some (a, b) -> s = a ++ "@" ++ b /\ count_at b = 0.
Proof.
  revert a b. induction s as [| c s IH]; intros a b; cbn [cut_last_at].
  - discriminate.
  - destruct (cut_last_at s) as [[a' b'] |] eqn:E.
    + intros [= <- <-]. destruct (IH _ _ eq_refl) as [-> Hb]. now split.
    + destruct (Ascii.eqb c "@") eqn:Ec; [| discriminate].
      intros [= <- <-]. apply Ascii.eqb_eq in Ec. subst c. split; [reflexivity |].
      clear IH. induction s as [| d s IHs]; [reflexivity |].
      cbn [cut_last_at count_at] in *.
      destruct (cut_last_at s) as [[? ?] |]; [discriminate |].
      destruct (Ascii.eqb d "@"); [discriminate |]. now apply IHs.
Qed.

End SplitAt.

Example parse_alice :
  parseProxyURL "alice:secret@10.0.0.5:8080" = ("10.0.0.5:8080", "alice:secret", None).
Proof. reflexivity. Qed.

Example parse_plain : parseProxyURL "10.0.0.5:8080" = ("10.0.0.5:8080", "", None).
Proof. reflexivity. Qed.

(** ** Reads, writes and closes on a tunnel *)

Section TunnelSteps.

Lemma conn_of_set_same (x : Side) (c : Conn) (t : Tunnel) :
  conn_of x (set_conn x c t) = c.
Proof. now destruct x. Qed.

Lemma conn_of_set_other (x y : Side) (c : Conn) (t : Tunnel) :
  x <> y -> conn_of x (set_conn y c t) = conn_of x t.
Proof. destruct x, y; intros H; try reflexivity; now elim H. Qed.

(** A projection [f] of a connection that an update of side [y] leaves
    alone on the updated connection is left alone on every side. *)
Lemma conn_field_set {A} (f : Conn -> A) (x y : Side) (c : Conn) (t : Tunnel) :
  f c = f (conn_of y t) -> f (conn_of x (set_conn y c t)) = f (conn_of x t).
Proof. destruct x, y; cbn; congruence. Qed.

Lemma conn_Write_wr (c : Conn) (p : list byte) :
  wr (fst (conn_Write c p)) = (wr c ++ accepted c p)%list.
Proof.
  unfold conn_Write, accepted. destruct (closed c); cbn.
  - now rewrite app_nil_r.
  - destruct (wcap c) as [k |]; [| reflexivity].
    destruct (Nat.leb (List.length p) k) eqn:E; cbn; [| reflexivity].
    apply Nat.leb_le in E. now rewrite firstn_all2.
Qed.

Lemma conn_Write_keeps (c : Conn) (p : list byte) :
  rd (fst (conn_Write c p)) = rd c /\ closed (fst (conn_Write c p)) = closed c.
Proof.
  unfold conn_Write. destruct (closed c) eqn:E; cbn; [now rewrite E |].
  destruct (wcap c) as [k |]; [destruct (Nat.leb (List.length p) k) |]; cbn; auto.
Qed.

(** A write either takes the whole of [p] without error, and then goes on
    accepting as before, or reports an error, and then what it took of [p]
    is all the connection will ever take. *)
Lemma conn_Write_accepted (c : Conn) (p more : list byte) :
  match snd (snd (conn_Write c p)) with
  | None =>
      fst (snd (conn_Write c p)) = List.length p /\
      accepted c (p ++ more) = (p ++ accepted (fst (conn_Write c p)) more)%list
  | Some _ =>
      fst (snd (conn_Write c p)) <= List.length p /\
      accepted c (p ++ more) = accepted c p
  end.
Proof.
  unfold conn_Write, accepted. destruct (closed c) eqn:Ecl; cbn.
  - split; [lia | reflexivity].
  - destruct (wcap c) as [k |]; cbn.
    + destruct (Nat.leb (List.length p) k) eqn:E; cbn; rewrite ?Ecl.
      * apply Nat.leb_le in E. split; [reflexivity |].
        rewrite firstn_app, firstn_all2 by exact E. reflexivity.
      * apply Nat.leb_gt in E. split; [lia |].
        rewrite firstn_app. replace (k - List.length p) with 0 by lia.
        cbn. now rewrite app_nil_r.
    + now split.
Qed.

Lemma conn_Read_keeps (c : Conn) :
  wr (fst (conn_Read c)) = wr c /\ wcap (fst (conn_Read c)) = wcap c /\
  closed (fst (conn_Read c)) = closed c.
Proof.
  unfold conn_Read. destruct (closed c) eqn:E; cbn; [now rewrite E |].
  destruct (rd c); cbn; auto.
Qed.

(** A read that reports no error has consumed one entry of the script;
    any read splits what is pending into the chunk and the rest. *)
Lemma conn_Read_pending (c : Conn) :
  match snd (snd (conn_Read c)) with
  | None =>
      S (List.length (rd (fst (conn_Read c)))) = List.length (rd c) /\
      pending c = (fst (snd (conn_Read c)) ++ pending (fst (conn_Read c)))%list
  | Some _ => pending c = fst (snd (conn_Read c))
  end.
Proof.
  unfold conn_Read, pending. destruct (closed c) eqn:E; cbn; [reflexivity |].
  destruct (rd c) as [| [buf [e |]] rest]; cbn; rewrite ?E; auto.
Qed.

Lemma conn_Close_idem (c : Conn) : closed c = true -> conn_Close c = c.
Proof. destruct c; cbn; now intros ->. Qed.

End TunnelSteps.

Section TunnelOps.

Lemma Read_unfold (s : Side) (t : Tunnel) :
  Read s t = (set_conn s (fst (conn_Read (conn_of s t))) t,
              snd (conn_Read (conn_of s t))).
Proof. unfold Read. now destruct (conn_Read (conn_of s t)). Qed.

Lemma Write_unfold (d : Side) (p : list byte) (t : Tunnel) :
  Write d p t = (set_conn d (fst (conn_Write (conn_of d t) p)) t,
                 snd (conn_Write (conn_of d t) p)).
Proof. unfold Write. now destruct (conn_Write (conn_of d t) p). Qed.

Lemma conn_Read_accepted (c : Conn) : accepted (fst (conn_Read c)) = accepted c.
Proof.
  unfold accepted, conn_Read. destruct (closed c) eqn:E; cbn; [now rewrite E |].
  destruct (rd c); cbn; now rewrite ?E.
Qed.

Lemma conn_Write_pending (c : Conn) (p : list byte) :
  pending (fst (conn_Write c p)) = pending c.
Proof.
  unfold pending. destruct (conn_Write_keeps c p) as [-> ->]. reflexivity.
Qed.

Lemma accepted_nil (c : Conn) : accepted c [] = [].
Proof.
  unfold accepted. destruct (closed c); [reflexivity |].
  destruct (wcap c) as [k |]; [apply firstn_nil | reflexivity].
Qed.

(** What [Read] on side [s] does to the tunnel. *)
Lemma Read_spec (s : Side) (t : Tunnel) :
  let t1 := fst (Read s t) in
  let buf := fst (snd (Read s t)) in
  (forall x, wr (conn_of x t1) = wr (conn_of x t)) /\
  (forall x, closed (conn_of x t1) = closed (conn_of x t)) /\
  (forall x, accepted (conn_of x t1) = accepted (conn_of x t)) /\
  match snd (snd (Read s t)) with
  | None =>
      S (List.length (rd (conn_of s t1))) = List.length (rd (conn_of s t)) /\
      pending (conn_of s t) = (buf ++ pending (conn_of s t1))%list
  | Some _ => pending (conn_of s t) = buf
  end.
Proof.
  rewrite Read_unfold. cbn [fst snd].
  destruct (conn_Read_keeps (conn_of s t)) as (Hw & _ & Hc).
  repeat split.
  - intros x. now apply (conn_field_set wr).
  - intros x. now apply (conn_field_set closed).
  - intros x. apply (conn_field_set accepted). apply conn_Read_accepted.
  - rewrite conn_of_set_same. apply conn_Read_pending.
Qed.

(** What [Write] on side [d] does to the tunnel. *)
Lemma Write_spec (d : Side) (p : list byte) (t : Tunnel) :
  let t2 := fst (Write d p t) in
  let nw := fst (snd (Write d p t)) in
  (forall x, rd (conn_of x t2) = rd (conn_of x t)) /\
  (forall x, closed (conn_of x t2) = closed (conn_of x t)) /\
  (forall x, pending (conn_of x t2) = pending (conn_of x t)) /\
  (forall x, x <> d -> wr (conn_of x t2) = wr (conn_of x t)) /\
  wr (conn_of d t2) = (wr (conn_of d t) ++ accepted (conn_of d t) p)%list /\
  nw <= List.length p /\
  match snd (snd (Write d p t)) with
  | None =>
      nw = List.length p /\
      forall more, accepted (conn_of d t) (p ++ more)
                   = (p ++ accepted (conn_of d t2) more)%list
  | Some _ =>
      forall more, accepted (conn_of d t) (p ++ more) = accepted (conn_of d t) p
  end.
Proof.
  rewrite Write_unfold. cbn [fst snd].
  destruct (conn_Write_keeps (conn_of d t) p) as (Hr & Hc).
  split; [| split; [| split; [| split; [| split; [| split]]]]].
  - intros x. now apply (conn_field_set rd).
  - intros x. now apply (conn_field_set closed).
  - intros x. apply (conn_field_set pending). apply conn_Write_pending.
  - intros x Hx. now rewrite conn_of_set_other.
  - rewrite conn_of_set_same. apply conn_Write_wr.
  - pose proof (conn_Write_accepted (conn_of d t) p []) as H.
    destruct (snd (snd (conn_Write (conn_of d t) p))); lia.
  - rewrite conn_of_set_same.
    destruct (snd (snd (conn_Write (conn_of d t) p))) eqn:E.
    + intros more. pose proof (conn_Write_accepted (conn_of d t) p more) as H.
      rewrite E in H. apply H.
    + split.
      * pose proof (conn_Write_accepted (conn_of d t) p []) as H.
        rewrite E in H. apply H.
      * intros more. pose proof (conn_Write_accepted (conn_of d t) p more) as H.
        rewrite E in H. apply H.
Qed.

Lemma Close_closed (x s : Side) (t : Tunnel) :
  closed (conn_of x (Close s t)) = if closed (conn_of x t) then true
                                   else match x, s with
                                        | Client, Client | Outbound, Outbound => true
                                        | _, _ => false
                                        end.
Proof. destruct x, s, t as [[] []]; cbn; now destruct closed0, closed1. Qed.

Lemma Close_wr (x s : Side) (t : Tunnel) : wr (conn_of x (Close s t)) = wr (conn_of x t).
Proof. now destruct x, s. Qed.

Lemma Close_idem (s : Side) (t : Tunnel) :
  closed (conn_of s t) = true -> Close s t = t.
Proof.
  intros H. unfold Close. rewrite conn_Close_idem by exact H.
  now destruct s, t.
Qed.

End TunnelOps.

(** ** The copy loop *)

Section CopyLoop.

Variables d s : Side.

(** With more fuel than the source has reads left, the loop returns; the
    destination has then received, after what it already held, exactly the
    part it accepted of what the source had pending, nothing was written
    elsewhere and no connection was closed. *)
Lemma copyBuffer_spec (fuel : nat) : forall (t : Tunnel) (w : nat),
  List.length (rd (conn_of s t)) < fuel ->
  exists t' n e,
    io.copyBuffer fuel d s t w = Some (t', n, e) /\
    wr (conn_of d t')
    = (wr (conn_of d t) ++ accepted (conn_of d t) (pending (conn_of s t)))%list /\
    (forall x, closed (conn_of x t') = closed (conn_of x t)) /\
    (forall x, x <> d -> wr (conn_of x t') = wr (conn_of x t)).
Proof.
  induction fuel as [| fuel IH]; intros t w Hlt; [lia |].
  cbn [io.copyBuffer].
  pose proof (Read_spec s t) as HR. cbn zeta in HR.
  destruct (Read s t) as [t1 [buf er]]. cbn [fst snd] in HR.
  destruct HR as (Hw1 & Hc1 & Ha1 & Hp1).
  destruct (Nat.ltb 0 (List.length buf)) eqn:Enr.
  - pose proof (Write_spec d buf t1) as HW. cbn zeta in HW.
    destruct (Write d buf t1) as [t2 [nw0 ew0]]. cbn [fst snd] in HW.
    destruct HW as (Hr2 & Hc2 & Hp2 & Hwo2 & Hwd2 & Hle & Hacc).
    rewrite Ha1 in Hacc, Hwd2. rewrite Hw1 in Hwd2.
    assert (Nat.ltb (List.length buf) nw0 = false) as -> by (apply Nat.ltb_ge; lia).
    assert (Hkeep : (forall x, closed (conn_of x t2) = closed (conn_of x t)) /\
                    (forall x, x <> d -> wr (conn_of x t2) = wr (conn_of x t))).
    { split; intros x; [now rewrite Hc2 | intros Hx; now rewrite Hwo2]. }
    destruct ew0 as [e |].
    + exists t2, (w + nw0), (Some e). split; [reflexivity |].
      split; [| exact Hkeep]. rewrite Hwd2. f_equal.
      destruct er; [rewrite Hp1 | destruct Hp1 as [_ ->]; rewrite Hacc]; reflexivity.
    + destruct Hacc as [-> Hacc]. rewrite Nat.eqb_refl. cbn [negb].
      assert (Hbuf : accepted (conn_of d t) buf = buf).
      { rewrite <- (app_nil_r buf) at 1. rewrite Hacc, accepted_nil. apply app_nil_r. }
      destruct er as [e |].
      * rewrite Hp1.
        destruct e; eexists t2, _, _; (split; [reflexivity |]);
          (split; [exact Hwd2 | exact Hkeep]).
      * destruct Hp1 as [Hlen Hp1].
        destruct (IH t2 (w + List.length buf)) as (t' & n & e & Hrun & Hwr & Hcl & Hoth).
        { rewrite Hr2. lia. }
        exists t', n, e. split; [exact Hrun |].
        split; [| split].
        -- rewrite Hwr, Hwd2, Hp2, Hp1, Hacc, Hbuf. now rewrite app_assoc.
        -- intros x. now rewrite Hcl, (proj1 Hkeep).
        -- intros x Hx. now rewrite Hoth, (proj2 Hkeep).
  - apply Nat.ltb_ge in Enr.
    assert (buf = []) as -> by (destruct buf; [reflexivity | cbn in Enr; lia]).
    assert (Hkeep : wr (conn_of d t1) = (wr (conn_of d t) ++ [])%list).
    { now rewrite app_nil_r. }
    destruct er as [e |].
    + rewrite Hp1, accepted_nil.
      destruct e; eexists t1, _, _; (split; [reflexivity |]);
        (split; [exact Hkeep | split; [exact Hc1 | intros x _; apply Hw1]]).
    + destruct Hp1 as [Hlen Hp1].
      destruct (IH t1 w) as (t' & n & e & Hrun & Hwr & Hcl & Hoth); [lia |].
      exists t', n, e. split; [exact Hrun |].
      split; [| split].
      * rewrite Hwr, Hw1, Ha1, Hp1. reflexivity.
      * intros x. now rewrite Hcl.
      * intros x Hx. now rewrite Hoth.
Qed.

End CopyLoop.

(** ** transfer *)

Lemma set_conn_same (x : Side) (t : Tunnel) : set_conn x (conn_of x t) t = t.
Proof. now destruct x, t. Qed.

(** Reading from a closed connection fails at once, so a copy from it ends
    in its first iteration and leaves the tunnel as it was. *)
Lemma Copy_from_closed (fuel : nat) (d s : Side) (t : Tunnel) :
  closed (conn_of s t) = true ->
  io.Copy (S fuel) d s t = Some (t, 0, Some ErrClosed).
Proof.
  intros H. unfold io.Copy. cbn [io.copyBuffer].
  rewrite Read_unfold. unfold conn_Read. rewrite H. cbn.
  now rewrite set_conn_same.
Qed.

(** C1. Each relay direction delivers the source's bytes to its destination
    unmodified and in order: when [transfer] is given more fuel than the
    source has reads left it returns, and the destination then holds what it
    held before followed by the part it accepted of the bytes the source had
    pending up to end-of-stream or error; with an open destination that
    never refuses a write, that is the whole of what the source produced.
    Nothing is written to any other connection. *)
Theorem transfer_relays_bytes_in_order (fuel : nat) (d s : Side) (t : Tunnel) :
  List.length (rd (conn_of s t)) < fuel ->
  exists t',
    transfer fuel d s t = Some t' /\
    wr (conn_of d t')
    = (wr (conn_of d t) ++ accepted (conn_of d t) (pending (conn_of s t)))%list /\
    (closed (conn_of s t) = false ->
     closed (conn_of d t) = false ->
     wcap (conn_of d t) = None ->
     wr (conn_of d t') = (wr (conn_of d t) ++ produced (rd (conn_of s t)))%list) /\
    (forall x, x <> d -> wr (conn_of x t') = wr (conn_of x t)).
Proof.
  intros Hfuel.
  destruct (copyBuffer_spec d s fuel t 0 Hfuel) as (t1 & n & e & Hrun & Hwr & _ & Hoth).
  exists (Close d (Close s t1)). unfold transfer, io.Copy. rewrite Hrun.
  split; [reflexivity |]. rewrite !Close_wr.
  split; [exact Hwr | split].
  - intros Hs Hd Hcap. rewrite Hwr. unfold accepted, pending.
    now rewrite Hs, Hd, Hcap.
  - intros x Hx. rewrite !Close_wr. now apply Hoth.
Qed.

Lemma transfer_relays_bytes_in_order_witness :
  exists t',
    transfer 4 Outbound Client demo_tunnel = Some t' /\
    wr (outbound t') = [x3e; x47; x45; x54; x20; x2f] /\
    (closed (client demo_tunnel) = false ->
     closed (outbound demo_tunnel) = false ->
     wcap (outbound demo_tunnel) = None ->
     wr (outbound t') = [x3e; x47; x45; x54; x20; x2f]) /\
    (forall x, x <> Outbound -> wr (conn_of x t') = wr (conn_of x demo_tunnel)).
Proof.
  apply (transfer_relays_bytes_in_order 4 Outbound Client demo_tunnel).
  cbn. lia.
Defined.

(** C9. A relay direction that completes, by end-of-stream or by an I/O
    error on either side, has closed both connections it holds: [transfer]
    returns, and both its destination and its source are then closed.  The
    opposite direction, whose source is now closed, ends in its first read
    and changes nothing further. *)
Theorem transfer_closes_both_ends (fuel : nat) (d s : Side) (t : Tunnel) :
  List.length (rd (conn_of s t)) < fuel ->
  exists t',
    transfer fuel d s t = Some t' /\
    closed (conn_of d t') = true /\
    closed (conn_of s t') = true /\
    forall fuel', transfer (S fuel') s d t' = Some t'.
Proof.
  intros Hfuel.
  destruct (copyBuffer_spec d s fuel t 0 Hfuel) as (t1 & n & e & Hrun & _ & _ & _).
  exists (Close d (Close s t1)). unfold transfer at 1. unfold io.Copy. rewrite Hrun.
  assert (Hd : closed (conn_of d (Close d (Close s t1))) = true).
  { rewrite Close_closed. destruct (closed (conn_of d (Close s t1))); now destruct d. }
  assert (Hs : closed (conn_of s (Close d (Close s t1))) = true).
  { rewrite !Close_closed. destruct (closed (conn_of s t1)); now destruct s, d. }
  split; [reflexivity | split; [exact Hd | split; [exact Hs |]]].
  intros fuel'. unfold transfer. rewrite Copy_from_closed by exact Hd.
  rewrite (Close_idem d) by exact Hd. now rewrite Close_idem.
Qed.

Lemma transfer_closes_both_ends_witness :
  exists t',
    transfer 4 Outbound Client demo_tunnel = Some t' /\
    closed (outbound t') = true /\
    closed (client t') = true /\
    forall fuel', transfer (S fuel') Client Outbound t' = Some t'.
Proof.
  apply (transfer_closes_both_ends 4 Outbound Client demo_tunnel).
  cbn. lia.
Defined.

(** ** The upstream-URL parser *)

Section Parser.

Lemma parseProxyURL_no_at (s : string) :
  count_at s = 0 -> parseProxyURL s = (s, "", None).
Proof.
  intros H. unfold parseProxyURL. rewrite Split_fields, (fields_no_at s "" H).
  reflexivity.
Qed.

Lemma parseProxyURL_one_at (s : string) :
  count_at s = 1 ->
  exists a b, cut_last_at s = Some (a, b) /\ parseProxyURL s = (b, a, None).
Proof.
  intros H. destruct (fields_one_at s "" H) as (a & b & Hc & Hf).
  exists a, b. split; [exact Hc |].
  unfold parseProxyURL. rewrite Split_fields, Hf. reflexivity.
Qed.

Lemma parseProxyURL_many_at (s : string) :
  2 <= count_at s -> parseProxyURL s = ("", "", None).
Proof.
  intros H. unfold parseProxyURL.
  pose proof (fields_length s "") as Hl. rewrite <- Split_fields in Hl.
  destruct (Nat.eqb (List.length (strings.Split s "@")) 2) eqn:E2.
  - apply Nat.eqb_eq in E2. lia.
  - destruct (Nat.eqb (List.length (strings.Split s "@")) 1) eqn:E1.
    + apply Nat.eqb_eq in E1. lia.
    + reflexivity.
Qed.

Lemma parseProxyURL_err (s : string) : snd (parseProxyURL s) = None.
Proof.
  unfold parseProxyURL.
  destruct (Nat.eqb (List.length (strings.Split s "@")) 2);
    [| destruct (Nat.eqb (List.length (strings.Split s "@")) 1)]; reflexivity.
Qed.

Lemma parseProxyURL_shape (s : string) :
  parseProxyURL s = (fst (fst (parseProxyURL s)), snd (fst (parseProxyURL s)), None).
Proof.
  pose proof (parseProxyURL_err s) as H.
  destruct (parseProxyURL s) as [[a b] e]. cbn in *. now subst e.
Qed.

End Parser.

(** C2, as the specification states it, fails: with two ['@'] the cut at the
    last one gives credentials ["a@b"] and address ["c"], while the parser
    returns neither. *)
Lemma parseProxyURL_last_at_counterexample :
  resolver_spec "a@b@c" = ("c", "a@b") /\
  parseProxyURL "a@b@c" = ("", "", None) /\
  (fst (fst (parseProxyURL "a@b@c")), snd (fst (parseProxyURL "a@b@c")))
  <> resolver_spec "a@b@c".
Proof. repeat split. discriminate. Qed.

(** C2, amended. On a string with at most one ['@'] the parser agrees with
    the cut at the last ['@']: the part before it is the credentials and the
    part after it the address, and without any ['@'] the credentials are
    empty and the whole string is the address; no error is returned. *)
Theorem parseProxyURL_at_most_one_at (s : string) :
  count_at s <= 1 ->
  parseProxyURL s = (fst (resolver_spec s), snd (resolver_spec s), None).
Proof.
  intros H. unfold resolver_spec.
  destruct (count_at s) as [| [| n]] eqn:E; [| | lia].
  - rewrite (cut_last_at_none s E). now apply parseProxyURL_no_at.
  - destruct (parseProxyURL_one_at s E) as (a & b & -> & ->). reflexivity.
Qed.

Lemma parseProxyURL_at_most_one_at_witness :
  parseProxyURL "alice:secret@10.0.0.5:8080"
  = ("10.0.0.5:8080", "alice:secret", None).
Proof.
  apply (parseProxyURL_at_most_one_at "alice:secret@10.0.0.5:8080").
  cbn. lia.
Defined.

(** C5 at its failing inputs: on specifications with two ['@'], with an
    empty address, or empty altogether, the parser returns empty or partial
    fields and a nil error. *)
Theorem parseProxyURL_malformed_no_error :
  parseProxyURL "a@b@c" = ("", "", None) /\
  parseProxyURL "alice:secret@" = ("", "alice:secret", None) /\
  parseProxyURL "" = ("", "", None).
Proof. repeat split. Qed.

(** ** base64 *)

(** The test vectors of RFC 4648, section 10, and the credentials of the
    specification's example. *)
Example base64_rfc4648 :
  base64.EncodeToString (list_byte_of_string "") = "" /\
  base64.EncodeToString (list_byte_of_string "f") = "Zg==" /\
  base64.EncodeToString (list_byte_of_string "fo") = "Zm8=" /\
  base64.EncodeToString (list_byte_of_string "foo") = "Zm9v" /\
  base64.EncodeToString (list_byte_of_string "foob") = "Zm9vYg==" /\
  base64.EncodeToString (list_byte_of_string "fooba") = "Zm9vYmE=" /\
  base64.EncodeToString (list_byte_of_string "foobar") = "Zm9vYmFy" /\
  base64.EncodeToString (list_byte_of_string "alice:secret") = "YWxpY2U6c2VjcmV0".
Proof. repeat split. Qed.

(** ** The encoder against RFC 4648 *)

(** What each byte of a 24-bit group contributes to each of the four
    six-bit indices the encoder extracts by shifting and masking. *)
Lemma contributions (b0 b1 b2 b3 b4 b5 b6 b7 : bool) :
  let x := Byte.to_N (Byte.of_bits (b0, (b1, (b2, (b3, (b4, (b5, (b6, b7)))))))) in
  (N.land (N.shiftr (N.shiftl x 16) 18) 63 = bitsN [b7; b6; b5; b4; b3; b2] /\
   N.land (N.shiftr (N.shiftl x 16) 12) 63 = bitsN [b1; b0; false; false; false; false] /\
   N.land (N.shiftr (N.shiftl x 16) 6) 63 = 0 /\
   N.land (N.shiftl x 16) 63 = 0)%N /\
  (N.land (N.shiftr (N.shiftl x 8) 18) 63 = 0 /\
   N.land (N.shiftr (N.shiftl x 8) 12) 63 = bitsN [false; false; b7; b6; b5; b4] /\
   N.land (N.shiftr (N.shiftl x 8) 6) 63 = bitsN [b3; b2; b1; b0; false; false] /\
   N.land (N.shiftl x 8) 63 = 0)%N /\
  (N.land (N.shiftr x 18) 63 = 0 /\
   N.land (N.shiftr x 12) 63 = 0 /\
   N.land (N.shiftr x 6) 63 = bitsN [false; false; false; false; b7; b6] /\
   N.land x 63 = bitsN [b5; b4; b3; b2; b1; b0])%N.
Proof.
  destruct b0, b1, b2, b3, b4, b5, b6, b7; vm_compute; repeat split.
Qed.

Lemma land_shiftr_lor3 (X Y Z k : N) :
  N.land (N.shiftr (N.lor (N.lor X Y) Z) k) 63
  = N.lor (N.lor (N.land (N.shiftr X k) 63) (N.land (N.shiftr Y k) 63))
          (N.land (N.shiftr Z k) 63).
Proof. now rewrite !N.shiftr_lor, !N.land_lor_distr_l. Qed.

Lemma land_lor3 (X Y Z : N) :
  N.land (N.lor (N.lor X Y) Z) 63
  = N.lor (N.lor (N.land X 63) (N.land Y 63)) (N.land Z 63).
Proof. now rewrite !N.land_lor_distr_l. Qed.

(** The encoder's table agrees with Table 1 of the RFC on every six-bit
    group. *)
Lemma pick_group (g0 g1 g2 g3 g4 g5 : bool) :
  pick (bitsN [g0; g1; g2; g3; g4; g5]) = rfc4648_char (group_value [g0; g1; g2; g3; g4; g5]).
Proof. destruct g0, g1, g2, g3, g4, g5; reflexivity. Qed.

Lemma lor_groups_hi2 (g0 g1 g2 g3 g4 g5 : bool) :
  N.lor (N.lor (bitsN [g0; g1; false; false; false; false])
               (bitsN [false; false; g2; g3; g4; g5])) 0
  = bitsN [g0; g1; g2; g3; g4; g5].
Proof. destruct g0, g1, g2, g3, g4, g5; reflexivity. Qed.

Lemma lor_groups_hi4 (g0 g1 g2 g3 g4 g5 : bool) :
  N.lor (N.lor 0 (bitsN [g0; g1; g2; g3; false; false]))
        (bitsN [false; false; false; false; g4; g5])
  = bitsN [g0; g1; g2; g3; g4; g5].
Proof. destruct g0, g1, g2, g3, g4, g5; reflexivity. Qed.

Section Quantum.
Variables a0 a1 a2 a3 a4 a5 a6 a7 : bool.
Variables b0 b1 b2 b3 b4 b5 b6 b7 : bool.
Variables c0 c1 c2 c3 c4 c5 c6 c7 : bool.
Let A := Byte.to_N (Byte.of_bits (a0, (a1, (a2, (a3, (a4, (a5, (a6, a7)))))))).
Let B := Byte.to_N (Byte.of_bits (b0, (b1, (b2, (b3, (b4, (b5, (b6, b7)))))))).
Let C := Byte.to_N (Byte.of_bits (c0, (c1, (c2, (c3, (c4, (c5, (c6, c7)))))))).

Lemma encode_three :
  let val := N.lor (N.lor (N.shiftl A 16) (N.shiftl B 8)) C in
  base64.encode (N.shiftr val 18) = rfc4648_char (group_value [a7; a6; a5; a4; a3; a2]) /\
  base64.encode (N.shiftr val 12) = rfc4648_char (group_value [a1; a0; b7; b6; b5; b4]) /\
  base64.encode (N.shiftr val 6) = rfc4648_char (group_value [b3; b2; b1; b0; c7; c6]) /\
  base64.encode val = rfc4648_char (group_value [c5; c4; c3; c2; c1; c0]).
Proof.
  cbv zeta. unfold base64.encode.
  rewrite !land_shiftr_lor3, land_lor3.
  destruct (contributions a0 a1 a2 a3 a4 a5 a6 a7) as ((A18 & A12 & A6 & A0) & _ & _).
  destruct (contributions b0 b1 b2 b3 b4 b5 b6 b7) as (_ & (B18 & B12 & B6 & B0) & _).
  destruct (contributions c0 c1 c2 c3 c4 c5 c6 c7) as (_ & _ & (C18 & C12 & C6 & C0)).
  cbv zeta in *. fold A in A18, A12, A6, A0. fold B in B18, B12, B6, B0.
  fold C in C18, C12, C6, C0.
  rewrite A18, A12, A6, A0, B18, B12, B6, B0, C18, C12, C6, C0.
  rewrite lor_groups_hi2, lor_groups_hi4, !N.lor_0_r, !N.lor_0_l.
  repeat split; apply pick_group.
Qed.
End Quantum.

Lemma encode_two (a0 a1 a2 a3 a4 a5 a6 a7 b0 b1 b2 b3 b4 b5 b6 b7 : bool) :
  let A := Byte.to_N (Byte.of_bits (a0, (a1, (a2, (a3, (a4, (a5, (a6, a7)))))))) in
  let B := Byte.to_N (Byte.of_bits (b0, (b1, (b2, (b3, (b4, (b5, (b6, b7)))))))) in
  let val := N.lor (N.shiftl A 16) (N.shiftl B 8) in
  base64.encode (N.shiftr val 18) = rfc4648_char (group_value [a7; a6; a5; a4; a3; a2]) /\
  base64.encode (N.shiftr val 12) = rfc4648_char (group_value [a1; a0; b7; b6; b5; b4]) /\
  base64.encode (N.shiftr val 6)
  = rfc4648_char (group_value [b3; b2; b1; b0; false; false]).
Proof.
  cbv zeta.
  pose proof (encode_three a0 a1 a2 a3 a4 a5 a6 a7 b0 b1 b2 b3 b4 b5 b6 b7
                false false false false false false false false) as H.
  cbv zeta in H.
  change (Byte.to_N (Byte.of_bits
            (false, (false, (false, (false, (false, (false, (false, false)))))))))
    with 0%N in H.
  rewrite !N.lor_0_r in H. tauto.
Qed.

Lemma encode_one (a0 a1 a2 a3 a4 a5 a6 a7 : bool) :
  let A := Byte.to_N (Byte.of_bits (a0, (a1, (a2, (a3, (a4, (a5, (a6, a7)))))))) in
  let val := N.shiftl A 16 in
  base64.encode (N.shiftr val 18) = rfc4648_char (group_value [a7; a6; a5; a4; a3; a2]) /\
  base64.encode (N.shiftr val 12)
  = rfc4648_char (group_value [a1; a0; false; false; false; false]).
Proof.
  cbv zeta.
  pose proof (encode_two a0 a1 a2 a3 a4 a5 a6 a7
                false false false false false false false false) as H.
  cbv zeta in H.
  change (Byte.to_N (Byte.of_bits
            (false, (false, (false, (false, (false, (false, (false, false)))))))))
    with 0%N in H.
  rewrite N.shiftl_0_l, !N.lor_0_r in H. tauto.
Qed.

Lemma byte_bits_of_bits (b0 b1 b2 b3 b4 b5 b6 b7 : bool) :
  byte_bits (Byte.of_bits (b0, (b1, (b2, (b3, (b4, (b5, (b6, b7))))))))
  = [b7; b6; b5; b4; b3; b2; b1; b0].
Proof. unfold byte_bits. now rewrite Byte.to_bits_of_bits. Qed.

Lemma rfc4648_encode_three (a b c : byte) (rest : list byte) :
  rfc4648_encode (a :: b :: c :: rest)
  = match byte_bits a, byte_bits b, byte_bits c with
    | [a7; a6; a5; a4; a3; a2; a1; a0],
      [b7; b6; b5; b4; b3; b2; b1; b0],
      [c7; c6; c5; c4; c3; c2; c1; c0] =>
        String (rfc4648_char (group_value [a7; a6; a5; a4; a3; a2]))
          (String (rfc4648_char (group_value [a1; a0; b7; b6; b5; b4]))
             (String (rfc4648_char (group_value [b3; b2; b1; b0; c7; c6]))
                (String (rfc4648_char (group_value [c5; c4; c3; c2; c1; c0]))
                   (rfc4648_encode rest))))
    | _, _, _ => ""
    end.
Proof.
  unfold rfc4648_encode, input_bits. cbn [List.length flat_map].
  replace (8 * S (S (S (List.length rest))) + 5)
    with ((8 * List.length rest + 5) + 4 * 6) by lia.
  rewrite Nat.div_add by lia.
  set (k := (8 * List.length rest + 5) / 6).
  replace ((k + 4) mod 4) with (k mod 4)
    by (symmetry; apply (Nat.Div0.mod_add k 1 4)).
  replace (k + 4) with (4 + k) by lia.
  rewrite <- (Byte.of_bits_to_bits a), <- (Byte.of_bits_to_bits b),
    <- (Byte.of_bits_to_bits c).
  destruct (Byte.to_bits a) as [a0 [a1 [a2 [a3 [a4 [a5 [a6 a7]]]]]]].
  destruct (Byte.to_bits b) as [b0 [b1 [b2 [b3 [b4 [b5 [b6 b7]]]]]]].
  destruct (Byte.to_bits c) as [c0 [c1 [c2 [c3 [c4 [c5 [c6 c7]]]]]]].
  rewrite !byte_bits_of_bits.
  cbn [Nat.add groups6 app firstn skipn map string_of_list_ascii].
  reflexivity.
Qed.

Lemma EncodeToString_rfc4648_upto (n : nat) : forall src : list byte,
  List.length src <= n -> base64.EncodeToString src = rfc4648_encode src.
Proof.
  induction n as [| n IH]; intros src H.
  - destruct src; [reflexivity | cbn in H; lia].
  - destruct src as [| a [| b [| c rest]]].
    + reflexivity.
    + cbn [base64.EncodeToString].
      rewrite <- (Byte.of_bits_to_bits a).
      destruct (Byte.to_bits a) as [a0 [a1 [a2 [a3 [a4 [a5 [a6 a7]]]]]]].
      destruct (encode_one a0 a1 a2 a3 a4 a5 a6 a7) as (-> & ->).
      unfold rfc4648_encode, input_bits. cbn [flat_map].
      rewrite byte_bits_of_bits. reflexivity.
    + cbn [base64.EncodeToString].
      rewrite <- (Byte.of_bits_to_bits a), <- (Byte.of_bits_to_bits b).
      destruct (Byte.to_bits a) as [a0 [a1 [a2 [a3 [a4 [a5 [a6 a7]]]]]]].
      destruct (Byte.to_bits b) as [b0 [b1 [b2 [b3 [b4 [b5 [b6 b7]]]]]]].
      destruct (encode_two a0 a1 a2 a3 a4 a5 a6 a7 b0 b1 b2 b3 b4 b5 b6 b7)
        as (-> & -> & ->).
      unfold rfc4648_encode, input_bits. cbn [flat_map].
      rewrite !byte_bits_of_bits. reflexivity.
    + rewrite rfc4648_encode_three. cbn [base64.EncodeToString base64.quantum].
      rewrite IH by (cbn in H; lia).
      rewrite <- (Byte.of_bits_to_bits a), <- (Byte.of_bits_to_bits b),
        <- (Byte.of_bits_to_bits c).
      destruct (Byte.to_bits a) as [a0 [a1 [a2 [a3 [a4 [a5 [a6 a7]]]]]]].
      destruct (Byte.to_bits b) as [b0 [b1 [b2 [b3 [b4 [b5 [b6 b7]]]]]]].
      destruct (Byte.to_bits c) as [c0 [c1 [c2 [c3 [c4 [c5 [c6 c7]]]]]]].
      rewrite !byte_bits_of_bits. unfold base64.quantum.
      destruct (encode_three a0 a1 a2 a3 a4 a5 a6 a7 b0 b1 b2 b3 b4 b5 b6 b7
                  c0 c1 c2 c3 c4 c5 c6 c7) as (-> & -> & -> & ->).
      reflexivity.
Qed.

(** The encoder computes the encoding of RFC 4648 on every input. *)
Lemma EncodeToString_is_rfc4648 (src : list byte) :
  base64.EncodeToString src = rfc4648_encode src.
Proof. apply (EncodeToString_rfc4648_upto (List.length src)). lia. Qed.

(** ** The CONNECT handlers *)

(** Unfold a handler into the case analysis on what the world answers. *)
Ltac unfold_handler :=
  cbv beta iota zeta delta
    [run serve handleProxyTunneling handleDirectTunneling
     bind ret exit lift failWith when
     net_Dial outConn_Write http_ReadResponse asHijacker Hijack go_transfer
     http_Error WriteHeader w_Write setHeaders set_outConn initial
     status headers body errorCalls dials outConn clientConn relays
     negb app
     StatusOK StatusInternalServerError StatusServiceUnavailable].

Section HandlerRuns.

Variable env : Env.
Variable proxyURL : string.
Variable r : Request.

(** Every run of the direct CONNECT handler, by what the world answers. *)
Lemma handleDirectTunneling_run :
  run (handleDirectTunneling env r)
  = match env_dial env (Host r) (Some 10000000000%Z) with
    | Err _ =>
        (Return,
         mkHState (Some 503) []
           (list_byte_of_string ("Failed to connect to the host" ++ LF))
           [("Failed to connect to the host", 503)]
           [(Host r, Some 10000000000%Z)] None None [])
    | Ok c =>
        match env_hijack env with
        | NotHijacker =>
            (Return,
             mkHState (Some 200) []
               (list_byte_of_string ("Hijacking not supported" ++ LF))
               [("Hijacking not supported", 500)]
               [(Host r, Some 10000000000%Z)] (Some c) None [])
        | HijackFails e =>
            (Return,
             mkHState (Some 200) []
               (list_byte_of_string (Error_string e ++ LF))
               [(Error_string e, 503)]
               [(Host r, Some 10000000000%Z)] (Some c) None [])
        | HijackGives cc =>
            (Next tt,
             mkHState (Some 200) [] [] []
               [(Host r, Some 10000000000%Z)] (Some c) (Some cc)
               [(Outbound, Client); (Client, Outbound)])
        end
    end.
Proof.
  unfold run, handleDirectTunneling. change (10 * Second)%Z with 10000000000%Z.
  unfold_handler.
  destruct (env_dial env (Host r) (Some 10000000000%Z)); [| reflexivity].
  destruct (env_hijack env); reflexivity.
Qed.

(** Every run of the chained CONNECT handler once its dial has succeeded:
    [c1] is the connection after the CONNECT request was written to it and
    [c2] the same connection after the answer was read from it. *)
Lemma handleProxyTunneling_run (c : Conn) :
  env_dial env (upstream_address proxyURL) None = Ok c ->
  let c1 := fst (conn_Write c (list_byte_of_string
                   (connectRequest (Host r) (upstream_auth proxyURL)))) in
  let c2 := mkConn (fst (env_readResponse env (rd c1))) (wr c1) (wcap c1) (closed c1) in
  let dialed := [(upstream_address proxyURL, @None Z)] in
  run (handleProxyTunneling env proxyURL r)
  = if closed c1
    then (Return,
          mkHState (Some 503) []
            (list_byte_of_string ("Failed to read response from the second proxy" ++ LF))
            [("Failed to read response from the second proxy", 503)]
            dialed (Some c1) None [])
    else match snd (env_readResponse env (rd c1)) with
         | Err _ =>
             (Return,
              mkHState (Some 503) []
                (list_byte_of_string ("Failed to read response from the second proxy" ++ LF))
                [("Failed to read response from the second proxy", 503)]
                dialed (Some c2) None [])
         | Ok code =>
             if Nat.eqb code 200
             then match env_hijack env with
                  | NotHijacker =>
                      (Return,
                       mkHState (Some 200) []
                         (list_byte_of_string ("Hijacking not supported" ++ LF))
                         [("Hijacking not supported", 500)]
                         dialed (Some c2) None [])
                  | HijackFails e =>
                      (Return,
                       mkHState (Some 200) []
                         (list_byte_of_string (Error_string e ++ LF))
                         [(Error_string e, 503)]
                         dialed (Some c2) None [])
                  | HijackGives cc =>
                      (Next tt,
                       mkHState (Some 200) [] [] [] dialed (Some c2) (Some cc)
                         [(Client, Outbound); (Outbound, Client)])
                  end
             else (Return,
                   mkHState (Some code) []
                     (list_byte_of_string
                        ("Failed to connect to the host through the second proxy" ++ LF))
                     [("Failed to connect to the host through the second proxy", code)]
                     dialed (Some c2) None [])
         end.
Proof.
  unfold upstream_address, upstream_auth. intros Hd. cbv zeta.
  remember (snd (fst (parseProxyURL proxyURL))) as auth.
  remember (fst (fst (parseProxyURL proxyURL))) as addr.
  remember (list_byte_of_string (connectRequest (Host r) auth)) as req.
  remember (fst (conn_Write c req)) as c1.
  unfold run, handleProxyTunneling.
  rewrite (parseProxyURL_shape proxyURL), <- Heqauth, <- Heqaddr.
  unfold_handler. rewrite Hd. unfold_handler. rewrite <- Heqreq, <- Heqc1.
  destruct (closed c1) eqn:Hcl; [reflexivity |].
  destruct (env_readResponse env (rd c1)) as [rest [code | e]]; cbn [fst snd];
    [| reflexivity].
  destruct (Nat.eqb code 200); [| reflexivity].
  destruct (env_hijack env); reflexivity.
Qed.

End HandlerRuns.

Section ChainedHandler.

Variable env : Env.
Variable proxyURL : string.
Variable r : Request.

(** When the dial fails the chained handler answers 503 and stops. *)
Lemma handleProxyTunneling_dial_failed (e : Error) :
  env_dial env (upstream_address proxyURL) None = Err e ->
  run (handleProxyTunneling env proxyURL r)
  = (Return,
     mkHState (Some 503) []
       (list_byte_of_string ("Failed to connect to the second proxy" ++ LF))
       [("Failed to connect to the second proxy", 503)]
       [(upstream_address proxyURL, None)] None None []).
Proof.
  unfold upstream_address. intros Hd. unfold run, handleProxyTunneling.
  rewrite (parseProxyURL_shape proxyURL).
  remember (fst (fst (parseProxyURL proxyURL))) as addr.
  unfold_handler. rewrite Hd. reflexivity.
Qed.

(** When the dial succeeds, the handler writes the CONNECT request to the
    connection it obtained; whatever happens next, that connection stays
    the outbound connection, nothing else is written to it, the handler
    does not close it, and the dial was attempted once. *)
Lemma handleProxyTunneling_dialed (c : Conn) :
  env_dial env (upstream_address proxyURL) None = Ok c ->
  exists fl st c',
    run (handleProxyTunneling env proxyURL r) = (fl, st) /\
    outConn st = Some c' /\
    wr c' = wr (fst (conn_Write c (list_byte_of_string
               (connectRequest (Host r) (upstream_auth proxyURL))))) /\
    closed c' = closed c /\
    dials st = [(upstream_address proxyURL, None)] /\
    ~ In ("Failed to parse proxy URL", 500) (errorCalls st).
Proof.
  intros Hd. rewrite (handleProxyTunneling_run env proxyURL r c Hd). cbv zeta.
  destruct (conn_Write_keeps c (list_byte_of_string
              (connectRequest (Host r) (upstream_auth proxyURL)))) as [_ Hcl].
  destruct (closed (fst (conn_Write c _))) eqn:Hc1;
    [| destruct (snd (env_readResponse env _)) as [code | e];
       [destruct (Nat.eqb code 200); [destruct (env_hijack env) |] |]];
    do 2 eexists; eexists; (split; [reflexivity |]);
    cbn [outConn dials errorCalls wr closed In];
    (split; [reflexivity |]); (split; [reflexivity |]);
    (split; [cbn [closed]; congruence |]); (split; [reflexivity |]);
    intuition discriminate.
Qed.

End ChainedHandler.

Lemma serve_connect (mode : Mode) (env : Env) (proxyURL : string) (r : Request) :
  Method r = MethodConnect ->
  serve mode env proxyURL r
  = match mode with
    | Chained => handleProxyTunneling env proxyURL r
    | Direct => handleDirectTunneling env r
    end.
Proof. intros H. unfold serve. rewrite H. now destruct mode. Qed.

(** C3. A chained CONNECT request whose dial succeeded writes to the second
    proxy one request: the line [CONNECT <host> HTTP/1.1] naming the host of
    the client's request, the [Host] line, then, only when the configured
    credentials are not empty, the line [Proxy-Authorization: Basic <token>]
    where the token is the standard base64 encoding of the credentials as
    RFC 4648 defines it, and the blank line that ends it. *)
Theorem chained_connect_request
  (env : Env) (proxyURL : string) (r : Request) (c : Conn) :
  Method r = MethodConnect ->
  env_dial env (upstream_address proxyURL) None = Ok c ->
  exists fl st c',
    run (serve Chained env proxyURL r) = (fl, st) /\
    outConn st = Some c' /\
    wr c' = (wr c ++ accepted c (list_byte_of_string
                        (connectRequest (Host r) (upstream_auth proxyURL))))%list /\
    (upstream_auth proxyURL = "" ->
     connectRequest (Host r) (upstream_auth proxyURL)
     = "CONNECT " ++ Host r ++ " HTTP/1.1" ++ CRLF
       ++ "Host: " ++ Host r ++ CRLF
       ++ CRLF) /\
    (upstream_auth proxyURL <> "" ->
     connectRequest (Host r) (upstream_auth proxyURL)
     = "CONNECT " ++ Host r ++ " HTTP/1.1" ++ CRLF
       ++ "Host: " ++ Host r ++ CRLF
       ++ "Proxy-Authorization: Basic "
       ++ rfc4648_encode (list_byte_of_string (upstream_auth proxyURL)) ++ CRLF
       ++ CRLF).
Proof.
  intros Hm Hd. rewrite (serve_connect Chained) by exact Hm.
  destruct (handleProxyTunneling_dialed env proxyURL r c Hd)
    as (fl & st & c' & Hrun & Hout & Hwr & _).
  exists fl, st, c'. split; [exact Hrun | split; [exact Hout |]].
  split; [now rewrite Hwr, conn_Write_wr |].
  unfold connectRequest, authorizationHeader. split; intros Ha.
  - rewrite Ha. reflexivity.
  - apply String.eqb_neq in Ha. rewrite Ha.
    rewrite EncodeToString_is_rfc4648. now rewrite !append_assoc.
Qed.

Lemma chained_connect_request_witness :
  exists fl st c',
    run (serve Chained (world 200 (HijackGives fresh_conn))
           "alice:secret@10.0.0.5:8080" connect_example) = (fl, st) /\
    outConn st = Some c' /\
    wr c' = list_byte_of_string
              ("CONNECT example.com:443 HTTP/1.1" ++ CRLF
               ++ "Host: example.com:443" ++ CRLF
               ++ "Proxy-Authorization: Basic YWxpY2U6c2VjcmV0" ++ CRLF
               ++ CRLF) /\
    ("alice:secret" = "" ->
     connectRequest "example.com:443" "alice:secret"
     = "CONNECT example.com:443 HTTP/1.1" ++ CRLF
       ++ "Host: example.com:443" ++ CRLF ++ CRLF) /\
    ("alice:secret" <> "" ->
     connectRequest "example.com:443" "alice:secret"
     = "CONNECT example.com:443 HTTP/1.1" ++ CRLF
       ++ "Host: example.com:443" ++ CRLF
       ++ "Proxy-Authorization: Basic YWxpY2U6c2VjcmV0" ++ CRLF
       ++ CRLF).
Proof.
  apply (chained_connect_request (world 200 (HijackGives fresh_conn))
           "alice:secret@10.0.0.5:8080" connect_example fresh_conn);
    reflexivity.
Defined.

(** C4 at its failing input: the second proxy answers 407.  The client is
    answered 407 and no relay is started, but the handler returns with the
    connection to the second proxy still open. *)
Theorem upstream_407_leaves_connection_open :
  exists st c,
    run (serve Chained (world 407 (HijackGives fresh_conn))
           "alice:secret@10.0.0.5:8080" connect_example) = (Return, st) /\
    status st = Some 407 /\
    relays st = [] /\
    clientConn st = None /\
    outConn st = Some c /\
    closed c = false.
Proof.
  remember (run (serve Chained (world 407 (HijackGives fresh_conn))
                   "alice:secret@10.0.0.5:8080" connect_example)) as res eqn:E.
  vm_compute in E. subst res. do 2 eexists. repeat split.
Qed.

(** C5 at its failing input, seen from the handler: with the upstream URL
    ["a@b@c"] no parse error is raised; the handler goes on to dial the empty
    address, and it is the failure of that dial that the client sees. *)
Lemma malformed_upstream_is_dialed :
  run (serve Chained unreachable_world "a@b@c" connect_example)
  = (Return,
     mkHState (Some 503) []
       (list_byte_of_string ("Failed to connect to the second proxy" ++ LF))
       [("Failed to connect to the second proxy", 503)]
       [("", None)] None None []).
Proof. reflexivity. Qed.

(** C6 at every input: both plain-HTTP handlers build their reverse proxy
    from a nil target, so the director panics on its first statement, before
    anything is sent to any destination or written to the client. *)
Theorem forward_handlers_panic (env : Env) (proxyURL : string) (r : Request) :
  run (handleDirectHTTP env r)
  = (Panic "runtime error: invalid memory address or nil pointer dereference", initial) /\
  run (handleProxyHTTP env proxyURL r)
  = (Panic "runtime error: invalid memory address or nil pointer dereference", initial).
Proof. split; reflexivity. Qed.

(** C7. A CONNECT request whose dial fails is answered 503 Service
    Unavailable; the handler returns after that single dial attempt, holding
    no connection and starting no relay.  The direct dial carries a timeout
    of ten seconds (10^10 ns); the dial to the second proxy carries none. *)
Theorem dial_failure_gives_503
  (mode : Mode) (env : Env) (proxyURL : string) (r : Request) (e : Error) :
  Method r = MethodConnect ->
  env_dial env
    (match mode with Direct => Host r | Chained => upstream_address proxyURL end)
    (match mode with Direct => Some 10000000000%Z | Chained => None end) = Err e ->
  exists st,
    run (serve mode env proxyURL r) = (Return, st) /\
    status st = Some 503 /\
    dials st =
      [(match mode with Direct => Host r | Chained => upstream_address proxyURL end,
        match mode with Direct => Some 10000000000%Z | Chained => None end)] /\
    outConn st = None /\ clientConn st = None /\ relays st = [].
Proof.
  intros Hm Hd. rewrite serve_connect by exact Hm. destruct mode.
  - unfold run, handleDirectTunneling. change (10 * Second)%Z with 10000000000%Z.
    unfold_handler. rewrite Hd.
    eexists. split; [reflexivity |]. repeat split.
  - rewrite (handleProxyTunneling_dial_failed env proxyURL r e Hd).
    eexists. split; [reflexivity |]. repeat split.
Qed.

Lemma dial_failure_gives_503_witness :
  exists st,
    run (serve Direct unreachable_world "" connect_example) = (Return, st) /\
    status st = Some 503 /\
    dials st = [("example.com:443", Some 10000000000%Z)] /\
    outConn st = None /\ clientConn st = None /\ relays st = [].
Proof.
  apply (dial_failure_gives_503 Direct unreachable_world "" connect_example
           (ErrIO "dial tcp: connection refused"));
    reflexivity.
Defined.

(** When the response writer is a hijacker whose [Hijack] returns an
    error, the handler reports it with code 503 (and the status line already
    sent is 200); no relay is started. *)
Lemma hijack_failure_500_counterexample :
  exists st,
    run (serve Direct (world 200 (HijackFails (ErrIO "hijack failed")))
           "" connect_example) = (Return, st) /\
    errorCalls st = [("hijack failed", 503)] /\
    status st = Some 200 /\
    relays st = [].
Proof.
  remember (run (serve Direct (world 200 (HijackFails (ErrIO "hijack failed")))
                   "" connect_example)) as res eqn:E.
  vm_compute in E. subst res. eexists. repeat split.
Qed.


(** When the outbound side of a CONNECT request, direct or chained, was set
    up and taking over the client connection fails, the handler returns
    without a client connection and without starting a relay, after calling
    [http.Error]: with code 500 when the response writer is no hijacker,
    with code 503 when [Hijack] returns an error. *)
Theorem hijack_failure_no_relay
  (mode : Mode) (env : Env) (proxyURL : string) (r : Request) :
  Method r = MethodConnect ->
  tunnel_ready mode env proxyURL r ->
  (env_hijack env = NotHijacker ->
   exists st,
     run (serve mode env proxyURL r) = (Return, st) /\
     errorCalls st = [("Hijacking not supported", 500)] /\
     clientConn st = None /\ relays st = []) /\
  (forall e, env_hijack env = HijackFails e ->
   exists st,
     run (serve mode env proxyURL r) = (Return, st) /\
     errorCalls st = [(Error_string e, 503)] /\
     clientConn st = None /\ relays st = []).
Proof.
  intros Hm Hready. rewrite serve_connect by exact Hm. destruct mode.
  - destruct Hready as (c & Hd). rewrite handleDirectTunneling_run, Hd.
    split; [intros Hh | intros e Hh]; rewrite Hh;
      (eexists; split; [reflexivity |]); repeat split.
  - destruct Hready as (c & Hd & Hopen & Hresp).
    rewrite (handleProxyTunneling_run env proxyURL r c Hd). cbv zeta.
    destruct (conn_Write_keeps c (list_byte_of_string
                (connectRequest (Host r) (upstream_auth proxyURL)))) as [Hrd Hcl].
    rewrite Hcl, Hrd, Hopen, Hresp. cbn [Nat.eqb].
    split; [intros Hh | intros e Hh]; rewrite Hh;
      (eexists; split; [reflexivity |]); repeat split.
Qed.

Lemma hijack_failure_no_relay_witness :
  (NotHijacker = NotHijacker ->
   exists st,
     run (serve Chained (world 200 NotHijacker) "10.0.0.5:8080" connect_example)
     = (Return, st) /\
     errorCalls st = [("Hijacking not supported", 500)] /\
     clientConn st = None /\ relays st = []) /\
  (forall e, NotHijacker = HijackFails e ->
   exists st,
     run (serve Chained (world 200 NotHijacker) "10.0.0.5:8080" connect_example)
     = (Return, st) /\
     errorCalls st = [(Error_string e, 503)] /\
     clientConn st = None /\ relays st = []).
Proof.
  apply (hijack_failure_no_relay Chained (world 200 NotHijacker)
           "10.0.0.5:8080" connect_example).
  - reflexivity.
  - exists fresh_conn. repeat split.
Defined.

(** When the outbound side was set up and the client connection is handed
    over, the client has been answered 200 and the handler ends having
    started the two relay directions of the tunnel, one each way. *)
Lemma tunnel_established
  (mode : Mode) (env : Env) (proxyURL : string) (r : Request) (cc : Conn) :
  Method r = MethodConnect ->
  tunnel_ready mode env proxyURL r ->
  env_hijack env = HijackGives cc ->
  exists st t,
    run (serve mode env proxyURL r) = (Next tt, st) /\
    status st = Some 200 /\
    errorCalls st = [] /\
    tunnel_of st = Some t /\
    client t = cc /\
    relays st = match mode with
                | Chained => [(Client, Outbound); (Outbound, Client)]
                | Direct => [(Outbound, Client); (Client, Outbound)]
                end.
Proof.
  intros Hm Hready Hh. rewrite serve_connect by exact Hm. destruct mode.
  - destruct Hready as (c & Hd). rewrite handleDirectTunneling_run, Hd, Hh.
    do 2 eexists. split; [reflexivity |]. repeat split.
  - destruct Hready as (c & Hd & Hopen & Hresp).
    rewrite (handleProxyTunneling_run env proxyURL r c Hd). cbv zeta.
    destruct (conn_Write_keeps c (list_byte_of_string
                (connectRequest (Host r) (upstream_auth proxyURL)))) as [Hrd Hcl].
    rewrite Hcl, Hrd, Hopen, Hresp, Hh. cbn [Nat.eqb].
    do 2 eexists. split; [reflexivity |]. repeat split.
Qed.

(** C10. [parseProxyURL] returns a nil error on every input, and on an input
    with two or more ['@'] it returns an empty address and empty credentials.
    Hence the chained CONNECT handler never reports a parse failure, and the
    proxy selection of the chained transport is whatever [url.Parse] makes of
    the address. *)
Theorem parseProxyURL_never_fails :
  (forall s, snd (parseProxyURL s) = None) /\
  (forall s, 2 <= count_at s -> parseProxyURL s = ("", "", None)) /\
  (forall env proxyURL r,
     ~ In ("Failed to parse proxy URL", 500)
          (errorCalls (snd (run (handleProxyTunneling env proxyURL r))))) /\
  (forall env proxyURL r,
     proxyTransport_Proxy env proxyURL r
     = match env_urlParse env (upstream_address proxyURL) with
       | Ok u => Ok (Some u)
       | Err e => Err e
       end).
Proof.
  split; [exact parseProxyURL_err |].
  split; [exact parseProxyURL_many_at |].
  split.
  - intros env proxyURL r.
    destruct (env_dial env (upstream_address proxyURL) None) as [c | e] eqn:Hd.
    + destruct (handleProxyTunneling_dialed env proxyURL r c Hd)
        as (fl & st & c' & Hrun & _ & _ & _ & _ & Hno).
      now rewrite Hrun.
    + rewrite (handleProxyTunneling_dial_failed env proxyURL r e Hd).
      cbn. intuition discriminate.
  - intros env proxyURL r. unfold proxyTransport_Proxy, upstream_address.
    rewrite (parseProxyURL_shape proxyURL). reflexivity.
Qed.

(** * Further properties of the handlers *)


Lemma tunnel_established_witness :
  exists st t,
    run (serve Chained (world 200 (HijackGives fresh_conn))
           "alice:secret@10.0.0.5:8080" connect_example) = (Next tt, st) /\
    status st = Some 200 /\
    errorCalls st = [] /\
    tunnel_of st = Some t /\
    client t = fresh_conn /\
    relays st = [(Client, Outbound); (Outbound, Client)].
Proof.
  apply (tunnel_established Chained (world 200 (HijackGives fresh_conn))
           "alice:secret@10.0.0.5:8080" connect_example fresh_conn).
  - reflexivity.
  - exists fresh_conn. repeat split.
  - reflexivity.
Defined.

(** A relay is only ever started at the end of a CONNECT request that went
    through: if a run of either listener leaves any relay goroutine behind,
    the method was CONNECT, the handler ran to its end, the client was
    answered 200 and no error was reported, both connections are held, and
    the relays are exactly the two directions between them. *)
Theorem relay_only_after_success
  (mode : Mode) (env : Env) (proxyURL : string) (r : Request) :
  relays (snd (run (serve mode env proxyURL r))) <> [] ->
  Method r = MethodConnect /\
  fst (run (serve mode env proxyURL r)) = Next tt /\
  status (snd (run (serve mode env proxyURL r))) = Some 200 /\
  errorCalls (snd (run (serve mode env proxyURL r))) = [] /\
  (exists c cc,
     outConn (snd (run (serve mode env proxyURL r))) = Some c /\
     clientConn (snd (run (serve mode env proxyURL r))) = Some cc /\
     env_hijack env = HijackGives cc) /\
  relays (snd (run (serve mode env proxyURL r)))
  = match mode with
    | Chained => [(Client, Outbound); (Outbound, Client)]
    | Direct => [(Outbound, Client); (Client, Outbound)]
    end.
Proof.
  unfold serve. destruct (String.eqb (Method r) MethodConnect) eqn:Hm.
  - apply String.eqb_eq in Hm. destruct mode.
    + rewrite handleDirectTunneling_run.
      destruct (env_dial env (Host r) (Some 10000000000%Z)) as [c | e];
        [destruct (env_hijack env) as [| e | cc] eqn:Hh |];
        cbn [fst snd relays status errorCalls outConn clientConn]; intros H;
        try (now elim H).
      repeat split; try assumption. now exists c, cc.
    + destruct (env_dial env (upstream_address proxyURL) None) as [c | e] eqn:Hd.
      * rewrite (handleProxyTunneling_run env proxyURL r c Hd). cbv zeta.
        destruct (closed _);
          [| destruct (snd (env_readResponse env _)) as [code | e];
             [destruct (Nat.eqb code 200);
              [destruct (env_hijack env) as [| e | cc] eqn:Hh |] |]];
          cbn [fst snd relays status errorCalls outConn clientConn]; intros H;
          try (now elim H).
        repeat split; try assumption. eexists _, cc. now repeat split.
      * rewrite (handleProxyTunneling_dial_failed env proxyURL r e Hd).
        cbn. intros H. now elim H.
  - destruct mode; cbn; intros H; now elim H.
Qed.

Lemma relay_only_after_success_witness :
  Method connect_example = MethodConnect /\
  fst (run (serve Direct (world 200 (HijackGives fresh_conn)) "" connect_example))
  = Next tt.
Proof.
  pose proof (relay_only_after_success Direct (world 200 (HijackGives fresh_conn))
                "" connect_example) as H.
  split; apply H; discriminate.
Defined.

(** When the second proxy's answer cannot be read, because the connection is
    closed or because no response can be parsed from it, the chained handler
    answers 503 and returns without starting a relay. *)
Theorem upstream_response_unreadable_gives_503
  (env : Env) (proxyURL : string) (r : Request) (c : Conn) :
  Method r = MethodConnect ->
  env_dial env (upstream_address proxyURL) None = Ok c ->
  (closed c = true \/ exists e, snd (env_readResponse env (rd c)) = Err e) ->
  exists st,
    run (serve Chained env proxyURL r) = (Return, st) /\
    status st = Some 503 /\
    errorCalls st = [("Failed to read response from the second proxy", 503)] /\
    clientConn st = None /\
    relays st = [].
Proof.
  intros Hm Hd Hbad. rewrite serve_connect by exact Hm.
  rewrite (handleProxyTunneling_run env proxyURL r c Hd). cbv zeta.
  destruct (conn_Write_keeps c (list_byte_of_string
              (connectRequest (Host r) (upstream_auth proxyURL)))) as [Hrd Hcl].
  rewrite Hcl, Hrd.
  destruct (closed c) eqn:Hc.
  - eexists. split; [reflexivity |]. repeat split.
  - destruct Hbad as [Hbad | [e Hbad]]; [discriminate |]. rewrite Hbad.
    eexists. split; [reflexivity |]. repeat split.
Qed.

Lemma upstream_response_unreadable_gives_503_witness :
  exists st,
    run (serve Chained
           (mkEnv (fun _ _ => Ok fresh_conn) (fun l => (l, Err EOF))
                  (HijackGives fresh_conn) (fun _ => Err (ErrIO "parse"))
                  (fun _ _ => Err (ErrIO "round trip")))
           "10.0.0.5:8080" connect_example) = (Return, st) /\
    status st = Some 503 /\
    errorCalls st = [("Failed to read response from the second proxy", 503)] /\
    clientConn st = None /\
    relays st = [].
Proof.
  apply (upstream_response_unreadable_gives_503
           (mkEnv (fun _ _ => Ok fresh_conn) (fun l => (l, Err EOF))
                  (HijackGives fresh_conn) (fun _ => Err (ErrIO "parse"))
                  (fun _ _ => Err (ErrIO "round trip")))
           "10.0.0.5:8080" connect_example fresh_conn).
  - reflexivity.
  - reflexivity.
  - right. exists EOF. reflexivity.
Defined.

(** A final status above 200 answered by the second proxy is passed on: the
    chained handler reports it to the client with that very code, starts no
    relay, and does not ask for the client connection. *)
Theorem upstream_status_forwarded
  (env : Env) (proxyURL : string) (r : Request) (c : Conn) (code : nat) :
  Method r = MethodConnect ->
  env_dial env (upstream_address proxyURL) None = Ok c ->
  closed c = false ->
  snd (env_readResponse env (rd c)) = Ok code ->
  200 < code ->
  exists st,
    run (serve Chained env proxyURL r) = (Return, st) /\
    status st = Some code /\
    errorCalls st = [("Failed to connect to the host through the second proxy", code)] /\
    clientConn st = None /\
    relays st = [].
Proof.
  intros Hm Hd Hopen Hresp Hcode. rewrite serve_connect by exact Hm.
  rewrite (handleProxyTunneling_run env proxyURL r c Hd). cbv zeta.
  destruct (conn_Write_keeps c (list_byte_of_string
              (connectRequest (Host r) (upstream_auth proxyURL)))) as [Hrd Hcl].
  rewrite Hcl, Hrd, Hopen, Hresp.
  assert (Nat.eqb code 200 = false) as -> by (apply Nat.eqb_neq; lia).
  eexists. split; [reflexivity |]. repeat split.
Qed.

Lemma upstream_status_forwarded_witness :
  exists st,
    run (serve Chained (world 502 (HijackGives fresh_conn))
           "10.0.0.5:8080" connect_example) = (Return, st) /\
    status st = Some 502 /\
    errorCalls st = [("Failed to connect to the host through the second proxy", 502)] /\
    clientConn st = None /\
    relays st = [].
Proof.
  apply (upstream_status_forwarded (world 502 (HijackGives fresh_conn))
           "10.0.0.5:8080" connect_example fresh_conn 502);
    try reflexivity.
  lia.
Defined.

(** The CONNECT handlers never close the connection they dialed: however a
    run ends, the outbound connection is held in the state exactly as open
    or closed as the dial delivered it, so when no relay was started it is
    left open. *)
Theorem outbound_connection_never_closed_by_handler
  (mode : Mode) (env : Env) (proxyURL : string) (r : Request) (c : Conn) :
  Method r = MethodConnect ->
  env_dial env (fst (dial_of mode proxyURL r)) (snd (dial_of mode proxyURL r)) = Ok c ->
  exists c',
    outConn (snd (run (serve mode env proxyURL r))) = Some c' /\
    closed c' = closed c.
Proof.
  intros Hm Hd. rewrite serve_connect by exact Hm. destruct mode; cbn [dial_of fst snd] in Hd.
  - rewrite handleDirectTunneling_run, Hd.
    destruct (env_hijack env); exists c; now split.
  - rewrite (handleProxyTunneling_run env proxyURL r c Hd). cbv zeta.
    destruct (conn_Write_keeps c (list_byte_of_string
                (connectRequest (Host r) (upstream_auth proxyURL)))) as [Hrd Hcl].
    destruct (closed (fst (conn_Write c _))) eqn:Hc1.
    + eexists. split; [reflexivity |]. congruence.
    + destruct (snd (env_readResponse env _)) as [code | e];
        [destruct (Nat.eqb code 200); [destruct (env_hijack env) |] |];
        (eexists; split; [reflexivity |]); cbn [closed]; congruence.
Qed.

Lemma outbound_connection_never_closed_by_handler_witness :
  exists c',
    outConn (snd (run (serve Direct (world 200 NotHijacker) "" connect_example)))
    = Some c' /\
    closed c' = false.
Proof.
  apply (outbound_connection_never_closed_by_handler Direct (world 200 NotHijacker)
           "" connect_example fresh_conn);
    reflexivity.
Defined.

(** Every CONNECT request makes exactly one dial attempt, whatever happens
    afterwards: to the request's host with the ten-second bound on the
    direct listener, to the configured upstream address without a bound on
    the chained one. *)
Theorem connect_dials_exactly_once
  (mode : Mode) (env : Env) (proxyURL : string) (r : Request) :
  Method r = MethodConnect ->
  dials (snd (run (serve mode env proxyURL r))) = [dial_of mode proxyURL r].
Proof.
  intros Hm. rewrite serve_connect by exact Hm. destruct mode; cbn [dial_of].
  - rewrite handleDirectTunneling_run.
    destruct (env_dial env (Host r) (Some 10000000000%Z));
      [destruct (env_hijack env) |]; reflexivity.
  - destruct (env_dial env (upstream_address proxyURL) None) as [c | e] eqn:Hd.
    + rewrite (handleProxyTunneling_run env proxyURL r c Hd). cbv zeta.
      destruct (closed _);
        [| destruct (snd (env_readResponse env _)) as [code | e];
           [destruct (Nat.eqb code 200); [destruct (env_hijack env) |] |]];
        reflexivity.
    + now rewrite (handleProxyTunneling_dial_failed env proxyURL r e Hd).
Qed.

Lemma connect_dials_exactly_once_witness :
  dials (snd (run (serve Chained (world 407 NotHijacker)
                     "alice:secret@10.0.0.5:8080" connect_example)))
  = [("10.0.0.5:8080", None)].
Proof.
  apply (connect_dials_exactly_once Chained (world 407 NotHijacker)
           "alice:secret@10.0.0.5:8080" connect_example).
  reflexivity.
Defined.



(** * Further properties of the parser *)

Section SplitJoin.

Lemma count_at_app (a b : string) : count_at (a ++ b) = count_at a + count_at b.
Proof. induction a as [| c a IH]; cbn; [reflexivity | rewrite IH; lia]. Qed.

Lemma fields_Join (s cur : string) : strings_Join (fields s cur) "@" = cur ++ s.
Proof.
  revert cur. induction s as [| c s IH]; intros cur; cbn [fields].
  - cbn. now rewrite append_nil_r.
  - destruct (Ascii.eqb c "@") eqn:Ec.
    + apply Ascii.eqb_eq in Ec. subst c.
      specialize (IH ""). cbn [append] in IH.
      destruct (fields s "") as [| p ps] eqn:Ef.
      * pose proof (fields_length s "") as Hl. rewrite Ef in Hl. discriminate.
      * cbn [strings_Join] in *. now rewrite IH.
    + rewrite IH, append_assoc. reflexivity.
Qed.

Lemma fields_no_at_inside (s cur : string) :
  count_at cur = 0 -> Forall (fun p => count_at p = 0) (fields s cur).
Proof.
  revert cur. induction s as [| c s IH]; intros cur Hcur; cbn [fields].
  - now constructor.
  - destruct (Ascii.eqb c "@") eqn:Ec.
    + constructor; [exact Hcur | now apply IH].
    + apply IH. rewrite count_at_app. cbn. rewrite Ec. lia.
Qed.

End SplitJoin.

(** Splitting on ["@"] loses nothing: joining the pieces with ["@"] between
    them gives the string back. *)
Theorem Split_Join_roundtrip (s : string) :
  strings_Join (strings.Split s "@") "@" = s.
Proof. rewrite Split_fields. apply (fields_Join s ""). Qed.

(** Splitting on ["@"] yields one piece more than the string has ['@'], and
    no piece contains an ['@']. *)
Theorem Split_pieces (s : string) :
  List.length (strings.Split s "@") = S (count_at s) /\
  Forall (fun p => count_at p = 0) (strings.Split s "@").
Proof.
  rewrite Split_fields. split.
  - apply fields_length.
  - now apply fields_no_at_inside.
Qed.

(** Neither result of [parseProxyURL] ever contains an ['@'].  On a string
    with exactly one ['@'] the credentials, the ['@'] and the address rebuild
    the string; on a string without ['@'] the address is the string itself
    and the credentials are empty. *)
Theorem parseProxyURL_rebuild (s : string) :
  count_at (upstream_address s) = 0 /\
  count_at (upstream_auth s) = 0 /\
  (count_at s = 1 -> s = upstream_auth s ++ "@" ++ upstream_address s) /\
  (count_at s = 0 -> upstream_address s = s /\ upstream_auth s = "").
Proof.
  unfold upstream_address, upstream_auth.
  destruct (count_at s) as [| [| n]] eqn:E.
  - rewrite (parseProxyURL_no_at s E). cbn [fst snd].
    repeat split; intros; try discriminate; try reflexivity. exact E.
  - destruct (parseProxyURL_one_at s E) as (a & b & Hc & ->). cbn [fst snd].
    destruct (cut_last_at_sound s a b Hc) as [Hs Hb].
    assert (Ha : count_at a = 0).
    { rewrite Hs in E. rewrite !count_at_app in E. cbn in E. lia. }
    repeat split; intros; try assumption; discriminate.
  - rewrite (parseProxyURL_many_at s) by lia. cbn [fst snd].
    repeat split; intros; try reflexivity; discriminate.
Qed.

Lemma parseProxyURL_rebuild_witness :
  "alice:secret@10.0.0.5:8080"
  = upstream_auth "alice:secret@10.0.0.5:8080" ++ "@"
    ++ upstream_address "alice:secret@10.0.0.5:8080".
Proof.
  apply (parseProxyURL_rebuild "alice:secret@10.0.0.5:8080"). reflexivity.
Defined.

(** * Further properties of the CONNECT request *)

Section Base64Facts.

Lemma get_chars (s : string) (n : nat) : String.get n s = nth_error (chars s) n.
Proof.
  revert n. induction s as [| c s IH]; intros [| n]; cbn; auto.
Qed.

Lemma encode_alphabet (v : N) : In (base64.encode v) (chars base64.encodeStd).
Proof.
  unfold base64.encode. rewrite get_chars.
  destruct (nth_error (chars base64.encodeStd) (N.to_nat (N.land v 63))) as [c |] eqn:E.
  - eapply nth_error_In. exact E.
  - apply nth_error_None in E. change 63%N with (N.ones 6) in E.
    rewrite N.land_ones in E.
    assert (v mod 2 ^ 6 < 2 ^ 6)%N by (apply N.mod_lt; discriminate).
    change (List.length (chars base64.encodeStd)) with 64 in E.
    change (2 ^ 6)%N with 64%N in *. lia.
Qed.

Lemma EncodeToString_length_upto (n : nat) : forall src : list byte,
  List.length src <= n ->
  String.length (base64.EncodeToString src) = 4 * ((List.length src + 2) / 3).
Proof.
  induction n as [| n IH]; intros src H.
  - destruct src; [reflexivity | cbn in H; lia].
  - destruct src as [| a [| b [| c rest]]]; try reflexivity.
    cbn [base64.EncodeToString base64.quantum String.length].
    rewrite IH by (cbn in H; lia). cbn [List.length].
    replace (S (S (S (List.length rest))) + 2)
      with ((List.length rest + 2) + 1 * 3) by lia.
    rewrite Nat.div_add by lia. lia.
Qed.

Lemma EncodeToString_chars_upto (n : nat) : forall src : list byte,
  List.length src <= n ->
  Forall (fun c => In c (chars base64.encodeStd) \/ c = base64.padChar)
         (chars (base64.EncodeToString src)).
Proof.
  induction n as [| n IH]; intros src H.
  - destruct src; [constructor | cbn in H; lia].
  - destruct src as [| a [| b [| c rest]]];
      cbn [base64.EncodeToString base64.quantum chars];
      repeat (constructor; [first [left; apply encode_alphabet | now right] |]);
      try constructor.
    apply IH. cbn in H. lia.
Qed.

Lemma count_byte_app (b : ascii) (x y : string) :
  count_byte b (x ++ y) = count_byte b x + count_byte b y.
Proof. induction x as [| c x IH]; cbn; [reflexivity | rewrite IH; lia]. Qed.

Lemma count_byte_absent (b : ascii) (s : string) :
  Forall (fun c => c <> b) (chars s) -> count_byte b s = 0.
Proof.
  induction s as [| c s IH]; cbn; intros H; [reflexivity |].
  inversion H as [| ? ? Hc Hs]; subst.
  apply Ascii.eqb_neq in Hc. rewrite Hc. now apply IH.
Qed.

(** A base64 token holds no carriage return and no line feed. *)
Lemma EncodeToString_no_line_end (b : ascii) (src : list byte) :
  b = "013"%char \/ b = "010"%char ->
  count_byte b (base64.EncodeToString src) = 0.
Proof.
  intros Hb. apply count_byte_absent.
  eapply Forall_impl; [| apply (EncodeToString_chars_upto (List.length src)); lia].
  intros c [Hin | Hc] Hcb; subst c.
  - destruct Hb as [Hb | Hb]; subst b; cbn in Hin;
      repeat (destruct Hin as [Hin | Hin]; [discriminate |]); exact Hin.
  - destruct Hb as [Hb | Hb]; subst b; discriminate.
Qed.

End Base64Facts.

(** The base64 token of [n] bytes has 4 * ceil(n / 3) characters, each taken
    from the standard alphabet or the padding character ['=']. *)
Theorem EncodeToString_shape (src : list byte) :
  String.length (base64.EncodeToString src) = 4 * ((List.length src + 2) / 3) /\
  Forall (fun c => In c (chars base64.encodeStd) \/ c = base64.padChar)
         (chars (base64.EncodeToString src)).
Proof.
  split.
  - apply (EncodeToString_length_upto (List.length src)). lia.
  - apply (EncodeToString_chars_upto (List.length src)). lia.
Qed.

(** Credentials cannot add lines to the CONNECT request: whatever bytes they
    hold, the request has the line feeds (and the carriage returns) of the
    host, which appears twice, plus three when the credentials are empty and
    four otherwise. *)
Theorem connectRequest_line_ends (host auth : string) (b : ascii) :
  b = "013"%char \/ b = "010"%char ->
  count_byte b (connectRequest host auth)
  = 2 * count_byte b host + (if String.eqb auth "" then 3 else 4).
Proof.
  intros Hb. unfold connectRequest, authorizationHeader.
  destruct (String.eqb auth "").
  - rewrite !count_byte_app. destruct Hb as [-> | ->]; cbn; lia.
  - rewrite !count_byte_app, (EncodeToString_no_line_end b _ Hb).
    destruct Hb as [-> | ->]; cbn; lia.
Qed.

Lemma connectRequest_line_ends_witness :
  count_byte "010" (connectRequest "example.com:443" "alice:secret") = 4.
Proof.
  apply (connectRequest_line_ends "example.com:443" "alice:secret" "010"%char).
  now right.
Defined.

(** * Further properties of the relay *)

Section CopyIsolation.

Variables d s : Side.

Lemma Read_other (x : Side) (t : Tunnel) :
  x <> s -> conn_of x (fst (Read s t)) = conn_of x t.
Proof. intros Hx. rewrite Read_unfold. cbn [fst]. now apply conn_of_set_other. Qed.

Lemma Write_other (x : Side) (p : list byte) (t : Tunnel) :
  x <> d -> conn_of x (fst (Write d p t)) = conn_of x t.
Proof. intros Hx. rewrite Write_unfold. cbn [fst]. now apply conn_of_set_other. Qed.

Lemma Read_wcap (x : Side) (t : Tunnel) :
  wcap (conn_of x (fst (Read s t))) = wcap (conn_of x t).
Proof.
  rewrite Read_unfold. cbn [fst]. apply (conn_field_set wcap).
  apply conn_Read_keeps.
Qed.

Lemma Read_wr (x : Side) (t : Tunnel) :
  wr (conn_of x (fst (Read s t))) = wr (conn_of x t).
Proof.
  rewrite Read_unfold. cbn [fst]. apply (conn_field_set wr).
  apply conn_Read_keeps.
Qed.

(** The loop reads only from its source and writes only to its
    destination. *)
Lemma copyBuffer_isolation (fuel : nat) : forall (t : Tunnel) (w : nat) t' n e,
  io.copyBuffer fuel d s t w = Some (t', n, e) ->
  (forall x, x <> s -> rd (conn_of x t') = rd (conn_of x t)) /\
  (forall x, x <> d -> wcap (conn_of x t') = wcap (conn_of x t)) /\
  (forall x, x <> d -> wr (conn_of x t') = wr (conn_of x t)).
Proof.
  induction fuel as [| fuel IH]; intros t w t' n e Hrun; [discriminate |].
  cbn [io.copyBuffer] in Hrun.
  pose proof (fun x => Read_other x t) as Hr1.
  pose proof (fun x => Read_wcap x t) as Hc1.
  pose proof (fun x => Read_wr x t) as Hw1.
  destruct (Read s t) as [t1 [buf er]]. cbn [fst] in Hr1, Hc1, Hw1.
  assert (Hstay : (forall x, x <> s -> rd (conn_of x t1) = rd (conn_of x t)) /\
                  (forall x, x <> d -> wcap (conn_of x t1) = wcap (conn_of x t)) /\
                  (forall x, x <> d -> wr (conn_of x t1) = wr (conn_of x t))).
  { repeat split; intros x Hx; [now rewrite Hr1 | apply Hc1 | apply Hw1]. }
  destruct (Nat.ltb 0 (List.length buf)).
  - pose proof (fun x => Write_other x buf t1) as Hw2.
    pose proof (Write_spec d buf t1) as HW. cbv zeta in HW.
    destruct (Write d buf t1) as [t2 [nw0 ew0]]. cbn [fst snd] in Hw2, HW.
    destruct HW as (Hrd2 & _).
    assert (Hstay2 : (forall x, x <> s -> rd (conn_of x t2) = rd (conn_of x t)) /\
                     (forall x, x <> d -> wcap (conn_of x t2) = wcap (conn_of x t)) /\
                     (forall x, x <> d -> wr (conn_of x t2) = wr (conn_of x t))).
    { repeat split; intros x Hx;
        [rewrite Hrd2 | rewrite Hw2 by exact Hx | rewrite Hw2 by exact Hx];
        now apply Hstay. }
    destruct (Nat.ltb (List.length buf) nw0);
      [destruct ew0 as [e0 |]
      | destruct ew0 as [e0 |];
        [| destruct (negb (Nat.eqb (List.length buf) nw0));
           [| destruct er as [[] |]]]];
      try (injection Hrun as <- <- <-; exact Hstay2).
    apply IH in Hrun. destruct Hrun as (Ha & Hb & Hc).
    repeat split; intros x Hx;
      [rewrite Ha by exact Hx | rewrite Hb by exact Hx | rewrite Hc by exact Hx];
      now apply Hstay2.
  - destruct er as [[] |]; try (injection Hrun as <- <- <-; exact Hstay).
    apply IH in Hrun. destruct Hrun as (Ha & Hb & Hc).
    repeat split; intros x Hx;
      [rewrite Ha by exact Hx | rewrite Hb by exact Hx | rewrite Hc by exact Hx];
      now apply Hstay.
Qed.

End CopyIsolation.

Lemma Close_rd (x s : Side) (t : Tunnel) : rd (conn_of x (Close s t)) = rd (conn_of x t).
Proof. now destruct x, s. Qed.

Lemma Close_wcap (x s : Side) (t : Tunnel) : wcap (conn_of x (Close s t)) = wcap (conn_of x t).
Proof. now destruct x, s. Qed.

(** A relay direction reads only from its source and writes only to its
    destination: when it has finished, the input still pending on its
    destination has not been consumed, and nothing was written to its
    source nor taken from the capacity of its source. *)
Theorem transfer_touches_one_way_only (fuel : nat) (d s : Side) (t t' : Tunnel) :
  d <> s ->
  transfer fuel d s t = Some t' ->
  rd (conn_of d t') = rd (conn_of d t) /\
  wr (conn_of s t') = wr (conn_of s t) /\
  wcap (conn_of s t') = wcap (conn_of s t).
Proof.
  intros Hds Hrun. unfold transfer, io.Copy in Hrun.
  destruct (io.copyBuffer fuel d s t 0) as [[[t1 n] e] |] eqn:Hcopy; [| discriminate].
  injection Hrun as <-.
  destruct (copyBuffer_isolation d s fuel t 0 t1 n e Hcopy) as (Hrd & Hcap & Hwr).
  rewrite !Close_rd, !Close_wr, !Close_wcap.
  repeat split; [apply Hrd | apply Hwr | apply Hcap]; congruence.
Qed.

Lemma transfer_touches_one_way_only_witness :
  exists t',
    transfer 4 Outbound Client demo_tunnel = Some t' /\
    rd (outbound t') = [] /\ wr (client t') = [] /\ wcap (client t') = None.
Proof.
  eexists. split; [reflexivity |].
  apply (transfer_touches_one_way_only 4 Outbound Client demo_tunnel);
    [discriminate | reflexivity].
Defined.
